(** * Anomaly accumulation and tree reconciliation
    (tensorflow_data_validation/anomalies/schema_anomalies.cc)

    A shallow embedding of [SchemaAnomaly] (the per-feature accumulator) and
    [SchemaAnomalies] (the path-to-accumulator map and its sweeps), followed
    by the properties of the reason aggregation, of the accumulator
    operations and of the tree walk. *)

From Stdlib Require Import ZArith Lia Permutation.
From stdpp Require Import base option list strings gmap.

Local Open Scope string_scope.
Local Open Scope list_scope.
Local Set Warnings "-register-all".

(** ** Enumerations and descriptions *)

(** [tensorflow::metadata::v0::AnomalyInfo::Severity]. *)
Inductive Severity := UNKNOWN | WARNING | ERROR.

#[global] Instance Severity_eq_dec : EqDecision Severity.
Proof. solve_decision. Defined.

(** [AnomalyInfo::Type]: the values this file names, and the remaining
    values of the proto enum under their tag. The value-initialised
    [Description()] has the enum's zero, [UNKNOWN_TYPE]. *)
Inductive AnomalyType :=
| UNKNOWN_TYPE
| SCHEMA_MISSING_COLUMN
| SCHEMA_NEW_COLUMN
| OTHER_TYPE (tag : positive).

#[global] Instance AnomalyType_eq_dec : EqDecision AnomalyType.
Proof. solve_decision. Defined.

(** [Description] of internal_types.h: a plain struct of three fields. *)
Record Description := MkDescription {
  type : AnomalyType;
  short_description : string;
  long_description : string;
}.

#[global] Instance Description_eq_dec : EqDecision Description.
Proof. solve_decision. Defined.

(** [Description()]. *)
Definition empty_Description : Description := MkDescription UNKNOWN_TYPE "" "".

Definition kMultipleErrors : string := "Multiple errors".
Definition kColumnDropped : string := "Column dropped".

(** [Path]: the sequence of steps naming a feature. *)
Abbreviation Path := (list string).

(** ** Severity *)

(** The [default] branch of the source, a fatal log, is for values outside
    the enumeration. *)
Definition NumericalSeverity (a : Severity) : Z :=
  match a with
  | UNKNOWN => 0
  | WARNING => 1
  | ERROR => 2
  end.

(** Modelled from the spec: [MaxSeverity] is declared in schema_util.h and
    its body is not in this file. The spec gives Merge(a, b) = max(a, b)
    under the order UNKNOWN < WARNING < ERROR, which [NumericalSeverity]
    numbers. *)
Definition MaxSeverity (a b : Severity) : Severity :=
  if (NumericalSeverity b <? NumericalSeverity a)%Z then a else b.

(** ** Reason aggregation *)

(** The loop returns false at the first description of another kind. *)
Fixpoint AllSchemaNewColumn (descriptions : list Description) : bool :=
  match descriptions with
  | [] => true
  | description :: rest =>
      if bool_decide (type description ≠ SCHEMA_NEW_COLUMN) then false
      else AllSchemaNewColumn rest
  end.

(** [std::vector::empty]. *)
Definition empty_vector {A} (v : list A) : bool :=
  match v with [] => true | _ => false end.

(** [{descriptions[0]}] is written [take 1 descriptions]: the branch is
    only entered on a non-empty vector. *)
Definition FilterDescriptions (descriptions : list Description)
  : list Description :=
  if negb (empty_vector descriptions) && AllSchemaNewColumn descriptions
  then take 1 descriptions
  else descriptions.

(** The lambda handed to [std::accumulate]. *)
Definition unify_step (description_a description_b : Description)
  : Description :=
  if bool_decide (long_description description_a = "") then description_b
  else if bool_decide (long_description description_b = "") then description_a
  else
    MkDescription UNKNOWN_TYPE kMultipleErrors
      (long_description description_a +:+ " "
       +:+ long_description description_b).

Definition UnifyDescriptions (descriptions : list Description) : Description :=
  fold_left unify_step descriptions empty_Description.

(** ** Status, collaborators and the state monad *)

(** [tensorflow::Status]: OK, or an error code with its message. *)
Inductive Status := OK | NotOk (code : Z) (message : string).

#[global] Instance Status_eq_dec : EqDecision Status.
Proof. solve_decision. Defined.

(** [FeatureStatsView] as the walk uses it: the path of the node, the
    statistics it carries (opaque here) and its children. *)
Inductive FeatureStatsView (Stats : Type) := MkFeatureStatsView {
  GetPath : Path;
  GetStats : Stats;
  GetChildren : list (FeatureStatsView Stats);
}.
Arguments MkFeatureStatsView {Stats} _ _ _.
Arguments GetPath {Stats} _.
Arguments GetStats {Stats} _.
Arguments GetChildren {Stats} _.

(** [DatasetStatsView]: the root features, and the flat list of every
    feature that [features()] returns. *)
Record DatasetStatsView (Stats : Type) := MkDatasetStatsView {
  GetRootFeatures : list (FeatureStatsView Stats);
  features : list (FeatureStatsView Stats);
}.
Arguments MkDatasetStatsView {Stats} _ _.
Arguments GetRootFeatures {Stats} _.
Arguments features {Stats} _.

(** The class [Schema] (schema.h), [Schema::Updater], the schema proto and
    [Path::Serialize] are declared outside this file: they are parameters.
    A method that mutates the schema returns the new schema next to its
    result; a fallible one returns its [Status], and its out-parameters are
    read only when that status is [OK]. *)
Class SchemaApi (SchemaProto Schema Updater Config Stats : Type) := {
  (** [Schema().Init(proto)]: the schema after the call, and the status *)
  Schema_Init : SchemaProto → Schema * Status;
  Schema_GetSchema : Schema → SchemaProto;
  DebugString : SchemaProto → string;
  Schema_FeatureExists : Path → Schema → bool;
  Schema_FeatureIsDeprecated : Path → Schema → bool;
  Schema_DeprecateFeature : Path → Schema → Schema;
  Schema_Update :
    Updater → FeatureStatsView Stats → Schema →
    Schema * (Status * list Description * Severity);
  Schema_UpdateRecursively :
    Updater → FeatureStatsView Stats → option (gset Path) → Schema →
    Schema * (Status * list Description * Severity);
  Schema_UpdateSkewComparator :
    FeatureStatsView Stats → Schema → Schema * list Description;
  Schema_GetMissingPaths : DatasetStatsView Stats → Schema → list Path;
  Updater_new : Config → Updater;
  Path_Serialize : Path → string;
}.

(** What an execution records, in order: the calls of the methods of
    [Schema] that build or change a schema (its [const] queries are not
    recorded), the calls of [UpgradeSeverity] with their argument, and
    [Enter] for each activation of the tree walk. The record is ghost
    state: no definition below reads it. *)
Inductive Call :=
| Call_Init
| Call_Update (path : Path)
| Call_UpdateRecursively (path : Path)
| Call_UpdateSkewComparator (path : Path)
| Call_DeprecateFeature (path : Path)
| Call_UpgradeSeverity (new_severity : Severity)
| Enter (path : Path).

#[global] Instance Call_eq_dec : EqDecision Call.
Proof. solve_decision. Defined.

(** A method either returns, with the state it leaves behind and the calls
    it made, or does not: it dereferenced a null [schema_], or a
    [TF_CHECK_OK] ended the process. *)
Inductive Outcome (S A : Type) :=
| Returns (a : A) (s : S) (calls : list Call)
| NullSchema
| CheckFailed.
Arguments Returns {S A} _ _ _.
Arguments NullSchema {S A}.
Arguments CheckFailed {S A}.

Definition M (S A : Type) : Type := S → Outcome S A.

Definition ret {S A} (a : A) : M S A := λ s, Returns a s [].

Definition bind {S A B} (m : M S A) (k : A → M S B) : M S B :=
  λ s,
    match m s with
    | Returns a s1 calls1 =>
        match k a s1 with
        | Returns b s2 calls2 => Returns b s2 (calls1 ++ calls2)
        | NullSchema => NullSchema
        | CheckFailed => CheckFailed
        end
    | NullSchema => NullSchema
    | CheckFailed => CheckFailed
    end.

Definition gets {S A} (f : S → A) : M S A := λ s, Returns (f s) s [].
Definition modify {S} (f : S → S) : M S unit := λ s, Returns tt (f s) [].
Definition call {S} (c : Call) : M S unit := λ s, Returns tt s [c].

Declare Scope m_scope.
Delimit Scope m_scope with m.
Notation "x <- m ;; k" := (bind m (λ x, k))
  (at level 100, m at next level, right associativity) : m_scope.
Notation "m ;; k" := (bind m (λ _, k))
  (at level 100, right associativity) : m_scope.
(** [TF_RETURN_IF_ERROR(m); k] *)
Notation "'TF_RETURN_IF_ERROR' m ;; k" :=
  (bind m (λ st, match st with OK => k | NotOk _ _ => ret st end))
  (at level 100, m at next level, right associativity) : m_scope.

(** ** The accumulator: [SchemaAnomaly] *)

Section Anomalies.
Context {SchemaProto Schema Updater Config Stats Reasons : Type}.
Context {api : SchemaApi SchemaProto Schema Updater Config Stats}.

(** [schema_] is a [std::unique_ptr<Schema>]: null until [InitSchema]. *)
Record SchemaAnomaly := MkSchemaAnomaly {
  schema_ : option Schema;
  path_ : Path;
  descriptions_ : list Description;
  severity_ : Severity;
}.

(** [SchemaAnomaly::SchemaAnomaly()]. *)
Definition SchemaAnomaly_new : SchemaAnomaly :=
  MkSchemaAnomaly None [] [] UNKNOWN.

(** [schema_] reassigned, the other members kept. *)
Definition set_schema (o : option Schema) (self : SchemaAnomaly) :=
  MkSchemaAnomaly o (path_ self) (descriptions_ self) (severity_ self).

(** [descriptions_.insert(descriptions_.end(), first, last)], and
    [push_back] for a single description. *)
Definition insert_at_end (new_descriptions : list Description)
  : M SchemaAnomaly unit :=
  modify (λ self,
    MkSchemaAnomaly (schema_ self) (path_ self)
      (descriptions_ self ++ new_descriptions) (severity_ self)).

(** Modelled from the spec: [set_path] is defined in schema_anomalies.h,
    which is not in this file; the accumulator's state has a [path], and the
    setter stores it. *)
Definition set_path (path : Path) : M SchemaAnomaly unit :=
  modify (λ self,
    MkSchemaAnomaly (schema_ self) path (descriptions_ self) (severity_ self)).

(** Modelled from the spec: [is_problem] is defined in schema_anomalies.h,
    which is not in this file. Spec: "true iff descriptions is non-empty or
    severity > UNKNOWN". *)
Definition is_problem (self : SchemaAnomaly) : bool :=
  negb (empty_vector (descriptions_ self))
  || (NumericalSeverity UNKNOWN <? NumericalSeverity (severity_ self))%Z.

(** [schema_->method(...)]: dereferences [schema_], runs the method on the
    schema it points to and keeps the schema the method leaves. *)
Definition on_schema {A} (c : Call) (method : Schema → Schema * A)
  : M SchemaAnomaly A :=
  λ self,
    match schema_ self with
    | None => NullSchema
    | Some schema =>
        let '(schema', a) := method schema in
        Returns a (set_schema (Some schema') self) [c]
    end.

Definition InitSchema (schema : SchemaProto) : M SchemaAnomaly Status :=
  λ self,
    let '(fresh, status) := Schema_Init schema in
    Returns status (set_schema (Some fresh) self) [Call_Init].

Definition UpgradeSeverity (new_severity : Severity) : M SchemaAnomaly unit :=
  (call (Call_UpgradeSeverity new_severity) ;;
   modify (λ self,
     MkSchemaAnomaly (schema_ self) (path_ self) (descriptions_ self)
       (MaxSeverity (severity_ self) new_severity)))%m.

(** [path_.AsProto()] is the path itself; a reason is a description. *)
Record AnomalyInfo := MkAnomalyInfo {
  info_path : Path;
  info_reason : list Description;
  info_description : string;
  info_short_description : string;
  info_severity : Severity;
}.

Definition GetAnomalyInfoCommon (existing_schema new_schema : string)
    (self : SchemaAnomaly) : AnomalyInfo :=
  let filtered_descriptions := FilterDescriptions (descriptions_ self) in
  let unified_description := UnifyDescriptions filtered_descriptions in
  MkAnomalyInfo (path_ self)
    (map (λ description,
            MkDescription (type description) (short_description description)
              (long_description description))
         filtered_descriptions)
    (long_description unified_description)
    (short_description unified_description)
    (severity_ self).

(** [None]: [schema_] is null and the call dereferences it. *)
Definition GetAnomalyInfo (baseline : SchemaProto) (self : SchemaAnomaly)
  : option AnomalyInfo :=
  let baseline_text := DebugString baseline in
  schema ← schema_ self;
  let new_schema_text := DebugString (Schema_GetSchema schema) in
  Some (GetAnomalyInfoCommon baseline_text new_schema_text self).

Definition missing_column : Description :=
  MkDescription SCHEMA_MISSING_COLUMN kColumnDropped
    "Column is completely missing".

Definition ObserveMissing : M SchemaAnomaly unit :=
  (let description := missing_column in
   insert_at_end [description] ;;
   UpgradeSeverity ERROR ;;
   path <- gets path_ ;;
   on_schema (Call_DeprecateFeature path)
     (λ schema, (Schema_DeprecateFeature path schema, tt)))%m.

Definition Update (updater : Updater)
    (feature_stats_view : FeatureStatsView Stats) : M SchemaAnomaly Status :=
  (out <-
     on_schema (Call_Update (GetPath feature_stats_view))
       (Schema_Update updater feature_stats_view) ;;
   let '(status, new_descriptions, new_severity) := out in
   TF_RETURN_IF_ERROR ret status ;;
   insert_at_end new_descriptions ;;
   UpgradeSeverity new_severity ;;
   ret OK)%m.

Definition CreateNewField (updater : Updater)
    (features_to_update : option (gset Path))
    (feature_stats_view : FeatureStatsView Stats) : M SchemaAnomaly Status :=
  (out <-
     on_schema (Call_UpdateRecursively (GetPath feature_stats_view))
       (Schema_UpdateRecursively updater feature_stats_view
          features_to_update) ;;
   let '(status, new_descriptions, new_severity) := out in
   TF_RETURN_IF_ERROR ret status ;;
   UpgradeSeverity new_severity ;;
   insert_at_end new_descriptions ;;
   ret OK)%m.

Definition UpdateSkewComparator (feature_stats_view : FeatureStatsView Stats)
  : M SchemaAnomaly unit :=
  (new_descriptions <-
     on_schema (Call_UpdateSkewComparator (GetPath feature_stats_view))
       (Schema_UpdateSkewComparator feature_stats_view) ;;
   (if negb (empty_vector new_descriptions) then UpgradeSeverity ERROR
    else ret tt) ;;
   insert_at_end new_descriptions)%m.

Definition FeatureIsDeprecated (path : Path) (self : SchemaAnomaly) : bool :=
  match schema_ self with
  | Some schema => Schema_FeatureIsDeprecated path schema
  | None => false
  end.

(** ** The anomaly set: [SchemaAnomalies] *)

Record SchemaAnomalies := MkSchemaAnomalies {
  serialized_baseline_ : SchemaProto;
  anomalies_ : gmap Path SchemaAnomaly;
}.

(** [ContainsKey] of map_util.h. *)
Definition ContainsKey (anomalies : gmap Path SchemaAnomaly) (path : Path)
  : bool :=
  bool_decide (is_Some (anomalies !! path)).

(** [anomalies_[path]] followed by a method call on the entry:
    [operator[]] value-initialises the entry when the key is absent, and
    the method mutates the entry in place. *)
Definition at_key {A} (path : Path) (method : M SchemaAnomaly A)
  : M SchemaAnomalies A :=
  λ self,
    match method (default SchemaAnomaly_new (anomalies_ self !! path)) with
    | Returns a entry calls =>
        Returns a
          (MkSchemaAnomalies (serialized_baseline_ self)
             (<[path := entry]> (anomalies_ self)))
          calls
    | NullSchema => NullSchema
    | CheckFailed => CheckFailed
    end.

(** [anomalies_[path] = std::move(schema_anomaly)]. *)
Definition assign (path : Path) (schema_anomaly : SchemaAnomaly)
  : M SchemaAnomalies unit :=
  modify (λ self,
    MkSchemaAnomalies (serialized_baseline_ self)
      (<[path := schema_anomaly]> (anomalies_ self))).

(** Methods run on a local accumulator: the set is untouched, and the
    caller gets the last status and the accumulator as the methods left
    it. *)
Definition on_local {A} (local : SchemaAnomaly) (methods : M SchemaAnomaly A)
  : M SchemaAnomalies (A * SchemaAnomaly) :=
  λ self,
    match methods local with
    | Returns a local' calls => Returns (a, local') self calls
    | NullSchema => NullSchema
    | CheckFailed => CheckFailed
    end.

(** A range-based [for] whose body is [TF_RETURN_IF_ERROR(f(x))], followed
    by the [return Status::OK()] the loops of this file fall through to. *)
Definition for_each {S A} (f : A → M S Status) : list A → M S Status :=
  fix loop (range : list A) : M S Status :=
    match range with
    | [] => ret OK
    | x :: rest => (TF_RETURN_IF_ERROR f x ;; loop rest)%m
    end.

(** [TF_CHECK_OK(m)]: the process ends unless [m] returns [OK]. *)
Definition TF_CHECK_OK {S} (m : M S Status) : M S unit :=
  λ s,
    match m s with
    | Returns OK s' calls => Returns tt s' calls
    | Returns (NotOk _ _) _ _ => CheckFailed
    | NullSchema => NullSchema
    | CheckFailed => CheckFailed
    end.

(** [SchemaAnomalies::InitSchema], called on a fresh local [Schema]. *)
Definition InitSchema_baseline : M SchemaAnomalies (Schema * Status) :=
  (serialized_baseline <- gets serialized_baseline_ ;;
   call Call_Init ;;
   ret (Schema_Init serialized_baseline))%m.

Definition GenericUpdate (update : M SchemaAnomaly Status) (path : Path)
  : M SchemaAnomalies Status :=
  (contains <- gets (λ self, ContainsKey (anomalies_ self) path) ;;
   if contains then at_key path update
   else
     serialized_baseline <- gets serialized_baseline_ ;;
     r <- on_local SchemaAnomaly_new
            (TF_RETURN_IF_ERROR InitSchema serialized_baseline ;;
             set_path path ;;
             update) ;;
     let '(status, schema_anomaly) := r in
     TF_RETURN_IF_ERROR ret status ;;
     (if is_problem schema_anomaly then assign path schema_anomaly
      else ret tt) ;;
     ret OK)%m.

Definition ShouldCreateFeature (features_needed : option (gset Path))
    (feature : FeatureStatsView Stats) : bool :=
  match features_needed with
  | None => true
  | Some needed => bool_decide (GetPath feature ∈ needed)
  end.

Fixpoint FindChangesRecursively (feature_stats_view : FeatureStatsView Stats)
    (features_needed : option (gset Path)) (updater : Updater)
    {struct feature_stats_view} : M SchemaAnomalies Status :=
  match feature_stats_view with
  | MkFeatureStatsView path _ children =>
    (call (Enter path) ;;
     r <- InitSchema_baseline ;;
     let '(baseline, status) := r in
     TF_RETURN_IF_ERROR ret status ;;
     if Schema_FeatureExists path baseline then
       if Schema_FeatureIsDeprecated path baseline then ret OK
       else
         TF_RETURN_IF_ERROR
           GenericUpdate (Update updater feature_stats_view) path ;;
         deprecated <-
           gets (λ self,
             ContainsKey (anomalies_ self) path
             && match anomalies_ self !! path with
                | Some anomaly => FeatureIsDeprecated path anomaly
                | None => false
                end) ;;
         if deprecated then ret OK
         else
           for_each
             (λ child, FindChangesRecursively child features_needed updater)
             children
     else if ShouldCreateFeature features_needed feature_stats_view then
       (* Feature doesn't exist. Need to recursively create it. *)
       contains <- gets (λ self, ContainsKey (anomalies_ self) path) ;;
       TF_RETURN_IF_ERROR
         (if negb contains then
            serialized_baseline <- gets serialized_baseline_ ;;
            r <- on_local SchemaAnomaly_new
                   (TF_RETURN_IF_ERROR InitSchema serialized_baseline ;;
                    set_path path ;;
                    ret OK) ;;
            let '(status, anomaly) := r in
            TF_RETURN_IF_ERROR ret status ;;
            assign path anomaly ;;
            ret OK
          else ret OK) ;;
       TF_RETURN_IF_ERROR
         at_key path
           (CreateNewField updater features_needed feature_stats_view) ;;
       ret OK
     else ret OK)%m
  end.

(** The last loop of the source only logs the required paths that are in
    neither the statistics nor the baseline; it changes no state and no
    status, and is left out. [FeaturesNeeded] is a map whose keys are the
    required paths ([Reasons] stands for its values, which this file does
    not read); the first loop collects its keys. *)
Definition FindChanges (statistics : DatasetStatsView Stats)
    (features_needed : option (gmap Path Reasons)) (config : Config)
  : M SchemaAnomalies Status :=
  let updater := Updater_new config in
  let feature_set_to_create : option (gset Path) := dom <$> features_needed in
  (TF_RETURN_IF_ERROR
     for_each
       (λ feature_stats_view,
          FindChangesRecursively feature_stats_view feature_set_to_create
            updater)
       (GetRootFeatures statistics) ;;
   r <- InitSchema_baseline ;;
   let '(baseline, status) := r in
   TF_RETURN_IF_ERROR ret status ;;
   TF_RETURN_IF_ERROR
     for_each (GenericUpdate (ObserveMissing ;; ret OK))
       (Schema_GetMissingPaths statistics baseline) ;;
   ret OK)%m.

Definition FindSkew (dataset_stats_view : DatasetStatsView Stats)
  : M SchemaAnomalies Status :=
  for_each
    (λ feature_stats_view,
       TF_CHECK_OK
         (GenericUpdate
            (UpdateSkewComparator feature_stats_view ;; ret OK)
            (GetPath feature_stats_view)) ;;
       ret OK)%m
    (features dataset_stats_view).

(** [tensorflow::metadata::v0::Anomalies], and the two values of its name
    format: the default and the one [GetSchemaDiff] sets. *)
Inductive AnomalyNameFormat := UNKNOWN_FORMAT | SERIALIZED_PATH.

Record Anomalies := MkAnomalies {
  baseline : SchemaProto;
  anomaly_name_format : AnomalyNameFormat;
  anomaly_info : gmap string AnomalyInfo;
}.

(** Each entry is written under its serialised path, a later write under
    the same key replacing an earlier one. The source visits the entries in
    the order of their paths and [map_to_list] in its own: the results agree
    unless two paths of the map serialise to the same key. [None]: an entry
    has a null [schema_]. *)
Definition GetSchemaDiff (self : SchemaAnomalies) : option Anomalies :=
  let schema_proto := serialized_baseline_ self in
  result_schemas ←
    foldl
      (λ acc pair,
         result ← acc;
         info ← GetAnomalyInfo schema_proto pair.2;
         Some (<[Path_Serialize pair.1 := info]> result))
      (Some ∅) (map_to_list (anomalies_ self));
  Some (MkAnomalies schema_proto SERIALIZED_PATH result_schemas).

(** ** Vocabulary of the statements *)

(** The mutating operations of an accumulator, as data, and a run of a
    sequence of them on one accumulator (a failed operation does not stop
    the run: the orchestrator decides that, not the accumulator). *)
Inductive Operation :=
| Do_Update (updater : Updater) (feature_stats_view : FeatureStatsView Stats)
| Do_CreateNewField (updater : Updater)
    (features_to_update : option (gset Path))
    (feature_stats_view : FeatureStatsView Stats)
| Do_ObserveMissing
| Do_UpdateSkewComparator (feature_stats_view : FeatureStatsView Stats).

Definition run_operation (op : Operation) : M SchemaAnomaly Status :=
  match op with
  | Do_Update updater view => Update updater view
  | Do_CreateNewField updater needed view =>
      CreateNewField updater needed view
  | Do_ObserveMissing => (ObserveMissing ;; ret OK)%m
  | Do_UpdateSkewComparator view => (UpdateSkewComparator view ;; ret OK)%m
  end.

Fixpoint run_operations (ops : list Operation) : M SchemaAnomaly unit :=
  match ops with
  | [] => ret tt
  | op :: rest => (run_operation op ;; run_operations rest)%m
  end.

(** The severities an execution handed to [UpgradeSeverity], in order. *)
Definition upgrades (calls : list Call) : list Severity :=
  omap (λ c, match c with
             | Call_UpgradeSeverity new_severity => Some new_severity
             | _ => None
             end) calls.

Definition upgrade_all (severities : list Severity) : M SchemaAnomaly unit :=
  foldr (λ new_severity rest, (UpgradeSeverity new_severity ;; rest)%m)
    (ret tt) severities.

(** The test the walk makes after the in-place update: the path has a
    committed accumulator, and that accumulator reports the feature
    deprecated. *)
Definition reports_deprecated (path : Path) (self : SchemaAnomalies) : bool :=
  ContainsKey (anomalies_ self) path
  && match anomalies_ self !! path with
     | Some anomaly => FeatureIsDeprecated path anomaly
     | None => false
     end.


(** The states of an anomaly set: a new set, and whatever [FindChanges] and
    [FindSkew] leave when they return, with any status. *)
Inductive reachable : SchemaAnomalies → Prop :=
| reachable_new baseline :
    reachable (MkSchemaAnomalies baseline ∅)
| reachable_FindChanges self statistics needed config status self' calls :
    reachable self →
    FindChanges statistics needed config self = Returns status self' calls →
    reachable self'
| reachable_FindSkew self statistics status self' calls :
    reachable self →
    FindSkew statistics self = Returns status self' calls →
    reachable self'.


(** The reading of the creation branch under which an accumulator already
    in the map is not reused: after the walk of a node that is new and
    wanted, the entry of its path is what [CreateNewField] makes of a fresh
    accumulator seeded from the baseline. *)
Definition creation_never_reuses : Prop :=
  ∀ view needed updater self baseline status self' calls,
    Schema_Init (serialized_baseline_ self) = (baseline, OK) →
    Schema_FeatureExists (GetPath view) baseline = false →
    ShouldCreateFeature needed view = true →
    FindChangesRecursively view needed updater self
    = Returns status self' calls →
    ∃ status' entry calls',
      CreateNewField updater needed view
        (MkSchemaAnomaly (Some baseline) (GetPath view) [] UNKNOWN)
      = Returns status' entry calls'
      ∧ anomalies_ self' !! GetPath view = Some entry.







(** The severity an operation hands to [UpgradeSeverity] when it runs on an
    accumulator whose schema is [schema], if it hands one: the severity the
    evaluator or the creation returns when it succeeds, ERROR for a missing
    column, ERROR when the skew comparator returns a description. *)
Definition handed_severity (op : Operation) (schema : Schema)
  : option Severity :=
  match op with
  | Do_Update updater view =>
      let out := (Schema_Update updater view schema).2 in
      match out.1.1 with OK => Some out.2 | NotOk _ _ => None end
  | Do_CreateNewField updater needed view =>
      let out := (Schema_UpdateRecursively updater view needed schema).2 in
      match out.1.1 with OK => Some out.2 | NotOk _ _ => None end
  | Do_ObserveMissing => Some ERROR
  | Do_UpdateSkewComparator view =>
      if empty_vector (Schema_UpdateSkewComparator view schema).2 then None
      else Some ERROR
  end.

(** The schema an operation leaves in an accumulator of path [path] whose
    schema was [schema]. *)
Definition schema_after (op : Operation) (path : Path) (schema : Schema)
  : Schema :=
  match op with
  | Do_Update updater view => (Schema_Update updater view schema).1
  | Do_CreateNewField updater needed view =>
      (Schema_UpdateRecursively updater view needed schema).1
  | Do_ObserveMissing => Schema_DeprecateFeature path schema
  | Do_UpdateSkewComparator view =>
      (Schema_UpdateSkewComparator view schema).1
  end.

(** The per-operation severities of a sequence of operations, each taken on
    the schema the operations before it left. *)
Fixpoint handed_severities (ops : list Operation) (path : Path)
    (schema : Schema) : list Severity :=
  match ops with
  | [] => []
  | op :: rest =>
      option_list (handed_severity op schema)
      ++ handed_severities rest path (schema_after op path schema)
  end.

(** An operation whose severity does not depend on the schema it runs on. *)
Definition steady (op : Operation) : Prop :=
  ∀ schema schema', handed_severity op schema = handed_severity op schema'.

(** The reading of the severity claim under which the order of the
    operations does not matter: the same operations, applied to the same
    accumulator in two orders, leave the same severity. *)
Definition order_independent : Prop :=
  ∀ (ops ops' : list Operation) (self self1 self2 : SchemaAnomaly)
    calls1 calls2,
    Permutation ops ops' →
    run_operations ops self = Returns tt self1 calls1 →
    run_operations ops' self = Returns tt self2 calls2 →
    severity_ self1 = severity_ self2.

(** ** Vocabulary of the further properties *)

(** An accumulator after more operations: the same path, the descriptions
    it had with others after them, a severity that is not lower. *)
Definition extends (anomaly anomaly' : SchemaAnomaly) : Prop :=
  path_ anomaly' = path_ anomaly
  ∧ descriptions_ anomaly `prefix_of` descriptions_ anomaly'
  ∧ (NumericalSeverity (severity_ anomaly)
     ≤ NumericalSeverity (severity_ anomaly'))%Z.

(** An anomaly set after more sweeps: the same baseline, and every entry
    still there, extended. *)
Definition grows (self self' : SchemaAnomalies) : Prop :=
  serialized_baseline_ self' = serialized_baseline_ self
  ∧ ∀ path anomaly,
      anomalies_ self !! path = Some anomaly →
      ∃ anomaly',
        anomalies_ self' !! path = Some anomaly' ∧ extends anomaly anomaly'.

(** Every entry carries the path it is stored under and a schema. *)
Definition well_keyed (self : SchemaAnomalies) : Prop :=
  ∀ path anomaly,
    anomalies_ self !! path = Some anomaly →
    path_ anomaly = path ∧ is_Some (schema_ anomaly).

(** The nodes of a statistics tree, parents before children, and their
    paths. *)
Fixpoint nodes_of (view : FeatureStatsView Stats)
  : list (FeatureStatsView Stats) :=
  match view with
  | MkFeatureStatsView _ _ children =>
      view :: concat (map nodes_of children)
  end.

Definition paths_of (view : FeatureStatsView Stats) : list Path :=
  GetPath <$> nodes_of view.

(** The paths an execution activated the tree walk on, in order. *)
Definition entered (calls : list Call) : list Path :=
  omap (λ c, match c with Enter path => Some path | _ => None end) calls.

(** The path has an entry with severity ERROR that holds the description
    of a missing column. *)
Definition has_missing (path : Path) (self : SchemaAnomalies) : Prop :=
  ∃ anomaly,
    anomalies_ self !! path = Some anomaly
    ∧ severity_ anomaly = ERROR
    ∧ missing_column ∈ descriptions_ anomaly.

(** The execution returns in a state that satisfies [Q]; [check_ok] says
    whether it may instead end the process on a failed [TF_CHECK_OK]. It
    never dereferences a null [schema_]. *)
Definition outcome_in {S A} (check_ok : Prop) (Q : S → Prop)
    (o : Outcome S A) : Prop :=
  match o with
  | Returns _ s _ => Q s
  | NullSchema => False
  | CheckFailed => check_ok
  end.

(** The evaluator finds nothing on the node against the schema: it
    succeeds with no description and severity UNKNOWN. *)
Definition satisfied (updater : Updater) (schema : Schema)
    (view : FeatureStatsView Stats) : Prop :=
  Schema_FeatureExists (GetPath view) schema = true
  ∧ Schema_FeatureIsDeprecated (GetPath view) schema = false
  ∧ ∃ kept, Schema_Update updater view schema = (kept, (OK, [], UNKNOWN)).

End Anomalies.

Arguments SchemaAnomaly : clear implicits.
Arguments SchemaAnomalies : clear implicits.
Arguments Anomalies : clear implicits.

(** ** A small instance of the collaborators

    A schema is a list of features with their deprecation flag; the
    statistics of a node carry the answers the evaluator, the recursive
    creation and the skew comparator give for it. Creation reports the new
    column itself before anything the node's statistics add. *)
Module Toy.

Definition Proto : Type := option (list (Path * bool)).
Definition Schema : Type := list (Path * bool).

Record Stats := MkStats {
  update_out : Status * list Description * Severity;
  update_deprecates : bool;
  create_out : Status * list Description * Severity;
  skew_out : list Description;
}.

Definition parse (proto : Proto) : Schema * Status :=
  match proto with
  | Some declared => (declared, OK)
  | None => ([], NotOk 3 "schema does not parse")
  end.

Definition declares (path : Path) (schema : Schema) : bool :=
  bool_decide (path ∈ schema.*1).

Definition deprecated (path : Path) (schema : Schema) : bool :=
  bool_decide ((path, true) ∈ schema).

Definition deprecate (path : Path) (schema : Schema) : Schema :=
  map (λ f : Path * bool, if decide (f.1 = path) then (f.1, true) else f)
    schema.

Definition new_column : Description :=
  MkDescription SCHEMA_NEW_COLUMN "New column"
    "New column (column in data but not in schema)".

Definition evaluate (_ : unit) (view : FeatureStatsView Stats) (schema : Schema)
  : Schema * (Status * list Description * Severity) :=
  (if update_deprecates (GetStats view)
   then deprecate (GetPath view) schema else schema,
   update_out (GetStats view)).

Definition create (_ : unit) (view : FeatureStatsView Stats)
    (_ : option (gset Path)) (schema : Schema)
  : Schema * (Status * list Description * Severity) :=
  let '(status, found, severity) := create_out (GetStats view) in
  (schema ++ [(GetPath view, false)],
   (status, new_column :: found, MaxSeverity severity ERROR)).

Definition compare_skew (view : FeatureStatsView Stats)
    (schema : Schema) : Schema * list Description :=
  (schema, skew_out (GetStats view)).

Definition missing_paths (statistics : DatasetStatsView Stats)
    (schema : Schema) : list Path :=
  (filter
     (λ f : Path * bool,
        f.2 = false ∧ f.1 ∉ map GetPath (features statistics))
     schema).*1.

Definition dotted (path : Path) : string := String.concat "." path.

#[export] Instance api : SchemaApi Proto Schema unit unit Stats := {|
  Schema_Init := parse;
  Schema_GetSchema := Some;
  DebugString := λ proto,
    match proto with
    | Some declared => String.concat "," (map dotted declared.*1)
    | None => ""
    end;
  Schema_FeatureExists := declares;
  Schema_FeatureIsDeprecated := deprecated;
  Schema_DeprecateFeature := deprecate;
  Schema_Update := evaluate;
  Schema_UpdateRecursively := create;
  Schema_UpdateSkewComparator := compare_skew;
  Schema_GetMissingPaths := missing_paths;
  Updater_new := λ _, tt;
  Path_Serialize := dotted;
|}.

Abbreviation Accumulator := (SchemaAnomaly Schema).
Abbreviation AnomalySet := (SchemaAnomalies Proto Schema).

(** Statistics that satisfy every rule, and a leaf carrying them. *)
Definition clean : Stats := MkStats (OK, [], UNKNOWN) false (OK, [], UNKNOWN) [].
Definition leaf (path : Path) (stats : Stats) : FeatureStatsView Stats :=
  MkFeatureStatsView path stats [].

Definition a : Path := ["a"].
Definition b : Path := ["b"].
Definition z : Path := ["z"].

(** The baseline that declares the features [a] and [b]. *)
Definition ab : Proto := Some [(a, false); (b, false)].
Definition new_set (proto : Proto) : AnomalySet := MkSchemaAnomalies proto ∅.

(** An accumulator for [path] seeded from [ab], before any operation. *)
Definition seeded (path : Path) : Accumulator :=
  MkSchemaAnomaly (Some [(a, false); (b, false)]) path [] UNKNOWN.

Definition drifted : Description :=
  MkDescription (OTHER_TYPE 7) "High approximate Jensen-Shannon divergence"
    "The divergence between training and serving is above the threshold.".
Definition out_of_range : Description :=
  MkDescription (OTHER_TYPE 12) "Out-of-range values"
    "Unexpectedly small value: -1.".

(** Statistics whose skew comparison finds a drift, statistics the
    evaluator fails on, and statistics the evaluator flags. *)
Definition skewed : Stats :=
  MkStats (OK, [], UNKNOWN) false (OK, [], UNKNOWN) [drifted].
Definition unreadable : Stats :=
  MkStats (NotOk 3 "unsupported statistics", [out_of_range], ERROR) false
    (NotOk 3 "unsupported statistics", [], UNKNOWN) [].
Definition flagged : Stats :=
  MkStats (OK, [out_of_range], WARNING) false (OK, [], UNKNOWN) [].

(** The state an execution leaves, [fallback] if it does not return. *)
Definition state_of {S A} (fallback : S) (o : Outcome S A) : S :=
  match o with Returns _ s _ => s | _ => fallback end.

(** Statistics with the single feature [path]. *)
Definition single (path : Path) (stats : Stats) : DatasetStatsView Stats :=
  MkDatasetStatsView [leaf path stats] [leaf path stats].

(** The set after a first sweep over statistics that introduce [z], a
    feature the baseline [ab] does not declare. *)
Definition after_first_sweep : AnomalySet :=
  state_of (new_set ab)
    (FindChanges (Reasons := unit) (single z clean) None tt (new_set ab)).

(** A baseline in which [a] is deprecated, a node for [a] with a child, and
    a node for [a] whose validation deprecates it. *)
Definition a_deprecated : Proto := Some [(a, true); (b, false)].
Definition a_with_child (stats : Stats) : FeatureStatsView Stats :=
  MkFeatureStatsView a stats [leaf ["a"; "c"] flagged].
Definition dropping : Stats :=
  MkStats (OK, [out_of_range], ERROR) true (OK, [], UNKNOWN) [].

(** An accumulator for [a] that already holds a warning. *)
Definition warned : Accumulator :=
  MkSchemaAnomaly (Some [(a, false); (b, false)]) a [out_of_range] WARNING.

(** An accumulator holding a new column and then a missing column. *)
Definition mixed : Accumulator :=
  MkSchemaAnomaly (Some [(a, false); (b, false)]) a
    [MkDescription SCHEMA_NEW_COLUMN "New column" "X";
     MkDescription SCHEMA_MISSING_COLUMN "Column dropped" "Y"]
    ERROR.

(** The set after a walk over the new feature [z] whose creation fails. *)
Definition after_failed_creation : AnomalySet :=
  state_of (new_set ab)
    (FindChanges (Reasons := unit) (single z unreadable) None tt (new_set ab)).

(** The set after a walk over [a] that the evaluator flags. *)
Definition after_flagged : AnomalySet :=
  state_of (new_set ab)
    (FindChanges (Reasons := unit) (single a flagged) None tt (new_set ab)).

(** Five descriptions of a new column, as a five-node new subtree gives. *)
Definition five_new : list Description :=
  map (λ name, MkDescription SCHEMA_NEW_COLUMN "New column" name)
    ["z"; "z.p"; "z.q"; "z.p.r"; "z.p.s"].

(** The calls an execution records, none if it does not return. *)
Definition calls_of {S A} (o : Outcome S A) : list Call :=
  match o with Returns _ _ calls => calls | _ => [] end.

(** A baseline that declares [a] alone, and one that does not parse. *)
Definition only_a : Proto := Some [(a, false)].
Definition unparsable : Proto := None.

(** The set whose one entry is the missing feature [b]. *)
Definition only_b : AnomalySet :=
  MkSchemaAnomalies ab
    {[ b := MkSchemaAnomaly (Some [(a, false); (b, true)]) b
              [missing_column] ERROR ]}.

(** Statistics with three roots, the second of which is a new feature
    whose creation fails. *)
Definition three_roots : DatasetStatsView Stats :=
  MkDatasetStatsView [leaf a clean; leaf z unreadable; leaf b clean]
    [leaf a clean; leaf z unreadable; leaf b clean].

End Toy.

(** ** The same collaborators, with a lifecycle-aware evaluator

    The instance above, except that the evaluator leaves a feature its
    schema has deprecated out of validation: on such a feature it succeeds
    and finds nothing. *)
Module Lifecycle.

Definition evaluate (updater : unit) (view : FeatureStatsView Toy.Stats)
    (schema : Toy.Schema)
  : Toy.Schema * (Status * list Description * Severity) :=
  if Toy.deprecated (GetPath view) schema then (schema, (OK, [], UNKNOWN))
  else Toy.evaluate updater view schema.

Definition api : SchemaApi Toy.Proto Toy.Schema unit unit Toy.Stats := {|
  Schema_Init := Toy.parse;
  Schema_GetSchema := Some;
  DebugString := DebugString (SchemaApi := Toy.api);
  Schema_FeatureExists := Toy.declares;
  Schema_FeatureIsDeprecated := Toy.deprecated;
  Schema_DeprecateFeature := Toy.deprecate;
  Schema_Update := evaluate;
  Schema_UpdateRecursively := Toy.create;
  Schema_UpdateSkewComparator := Toy.compare_skew;
  Schema_GetMissingPaths := Toy.missing_paths;
  Updater_new := λ _, tt;
  Path_Serialize := Toy.dotted;
|}.

(** Statistics the evaluator answers with a warning and the deprecation of
    the feature, and the two updates the order of which matters: one with
    these statistics, one with statistics it answers with an error. *)
Definition retiring : Toy.Stats :=
  Toy.MkStats (OK, [Toy.out_of_range], WARNING) true (OK, [], UNKNOWN) [].

Definition retire_a : Operation (Updater := unit) :=
  Do_Update tt (Toy.leaf Toy.a retiring).
Definition drop_a : Operation (Updater := unit) :=
  Do_Update tt (Toy.leaf Toy.a Toy.dropping).

End Lifecycle.

(** ** Severity merge and reason aggregation *)

Lemma NumericalSeverity_inj a b :
  NumericalSeverity a = NumericalSeverity b → a = b.
Proof. by destruct a, b. Qed.

Lemma MaxSeverity_numerical a b :
  NumericalSeverity (MaxSeverity a b)
  = Z.max (NumericalSeverity a) (NumericalSeverity b).
Proof. by destruct a, b. Qed.

Lemma MaxSeverity_comm a b : MaxSeverity a b = MaxSeverity b a.
Proof. apply NumericalSeverity_inj. rewrite !MaxSeverity_numerical. lia. Qed.

Lemma MaxSeverity_assoc a b c :
  MaxSeverity a (MaxSeverity b c) = MaxSeverity (MaxSeverity a b) c.
Proof. apply NumericalSeverity_inj. rewrite !MaxSeverity_numerical. lia. Qed.

Lemma MaxSeverity_idem a : MaxSeverity a a = a.
Proof. by destruct a. Qed.

Lemma MaxSeverity_ERROR a : MaxSeverity a ERROR = ERROR.
Proof. by destruct a. Qed.

Lemma MaxSeverity_UNKNOWN a : MaxSeverity a UNKNOWN = a.
Proof. by destruct a. Qed.

Lemma MaxSeverity_ge a b :
  (NumericalSeverity a ≤ NumericalSeverity (MaxSeverity a b))%Z.
Proof. rewrite MaxSeverity_numerical. lia. Qed.

(** Folding the merge over a list of severities does not depend on the
    order of the list. *)
Lemma fold_MaxSeverity_perm (l l' : list Severity) :
  Permutation l l' →
  ∀ start, fold_left MaxSeverity l start = fold_left MaxSeverity l' start.
Proof.
  induction 1 as [|x l l' _ IH|x y l|l l' l'' _ IH1 _ IH2]; intros start; simpl.
  - done.
  - apply IH.
  - f_equal. rewrite <- !MaxSeverity_assoc. f_equal. apply MaxSeverity_comm.
  - by rewrite IH1.
Qed.

Lemma AllSchemaNewColumn_Forall descriptions :
  AllSchemaNewColumn descriptions = true
  ↔ Forall (λ d, type d = SCHEMA_NEW_COLUMN) descriptions.
Proof.
  induction descriptions as [|d rest IH]; simpl.
  - split; [constructor | done].
  - case_bool_decide as Hd.
    + split; [done |]. inversion 1; subst. contradiction.
    + rewrite IH. split.
      * intros Hrest. constructor; [| done].
        by destruct (decide (type d = SCHEMA_NEW_COLUMN)).
      * by inversion 1.
Qed.

Lemma FilterDescriptions_collapse first rest :
  Forall (λ d, type d = SCHEMA_NEW_COLUMN) (first :: rest) →
  FilterDescriptions (first :: rest) = [first].
Proof.
  intros Hall. apply AllSchemaNewColumn_Forall in Hall.
  unfold FilterDescriptions. by rewrite Hall.
Qed.

Lemma FilterDescriptions_unchanged descriptions :
  descriptions = [] ∨ Exists (λ d, type d ≠ SCHEMA_NEW_COLUMN) descriptions →
  FilterDescriptions descriptions = descriptions.
Proof.
  intros [-> | Hex]; [done |].
  unfold FilterDescriptions.
  destruct (AllSchemaNewColumn descriptions) eqn:Hall.
  - apply AllSchemaNewColumn_Forall in Hall.
    apply Exists_exists in Hex as (d & Hin & Hd).
    rewrite Forall_forall in Hall. by apply Hall in Hin.
  - by rewrite andb_false_r.
Qed.

Lemma FilterDescriptions_nil descriptions :
  FilterDescriptions descriptions = [] ↔ descriptions = [].
Proof.
  unfold FilterDescriptions. destruct descriptions as [|d rest]; [done |].
  simpl. by destruct (_ : bool).
Qed.

Lemma UnifyDescriptions_snoc descriptions d :
  UnifyDescriptions (descriptions ++ [d])
  = unify_step (UnifyDescriptions descriptions) d.
Proof. unfold UnifyDescriptions. by rewrite fold_left_app. Qed.

(** ** The accumulator's operations *)

Section AccumulatorFacts.
Context {SchemaProto Schema Updater Config Stats : Type}.
Context {api : SchemaApi SchemaProto Schema Updater Config Stats}.
Implicit Types (self : SchemaAnomaly Schema) (schema : Schema).

Lemma ObserveMissing_returns self schema :
  schema_ self = Some schema →
  ObserveMissing self
  = Returns tt
      (MkSchemaAnomaly
         (Some (Schema_DeprecateFeature (path_ self) schema)) (path_ self)
         (descriptions_ self ++ [missing_column])
         (MaxSeverity (severity_ self) ERROR))
      [Call_UpgradeSeverity ERROR; Call_DeprecateFeature (path_ self)].
Proof.
  intros Hs. unfold ObserveMissing, bind, on_schema; simpl. by rewrite Hs.
Qed.

Lemma Update_returns updater view self schema :
  schema_ self = Some schema →
  Update updater view self
  = let '(schema', (status, new_descriptions, new_severity)) :=
      Schema_Update updater view schema in
    match status with
    | OK =>
        Returns OK
          (MkSchemaAnomaly (Some schema') (path_ self)
             (descriptions_ self ++ new_descriptions)
             (MaxSeverity (severity_ self) new_severity))
          [Call_Update (GetPath view); Call_UpgradeSeverity new_severity]
    | NotOk _ _ =>
        Returns status
          (MkSchemaAnomaly (Some schema') (path_ self) (descriptions_ self)
             (severity_ self))
          [Call_Update (GetPath view)]
    end.
Proof.
  intros Hs. unfold Update, bind, on_schema; simpl. rewrite Hs.
  destruct (Schema_Update updater view schema)
    as [schema' [[[|code message] found] severity]]; reflexivity.
Qed.

Lemma CreateNewField_returns updater needed view self schema :
  schema_ self = Some schema →
  CreateNewField updater needed view self
  = let '(schema', (status, new_descriptions, new_severity)) :=
      Schema_UpdateRecursively updater view needed schema in
    match status with
    | OK =>
        Returns OK
          (MkSchemaAnomaly (Some schema') (path_ self)
             (descriptions_ self ++ new_descriptions)
             (MaxSeverity (severity_ self) new_severity))
          [Call_UpdateRecursively (GetPath view);
           Call_UpgradeSeverity new_severity]
    | NotOk _ _ =>
        Returns status
          (MkSchemaAnomaly (Some schema') (path_ self) (descriptions_ self)
             (severity_ self))
          [Call_UpdateRecursively (GetPath view)]
    end.
Proof.
  intros Hs. unfold CreateNewField, bind, on_schema; simpl. rewrite Hs.
  destruct (Schema_UpdateRecursively updater view needed schema)
    as [schema' [[[|code message] found] severity]]; reflexivity.
Qed.

Lemma UpdateSkewComparator_returns view self schema :
  schema_ self = Some schema →
  UpdateSkewComparator view self
  = let '(schema', new_descriptions) :=
      Schema_UpdateSkewComparator view schema in
    Returns tt
      (MkSchemaAnomaly (Some schema') (path_ self)
         (descriptions_ self ++ new_descriptions)
         (if empty_vector new_descriptions then severity_ self
          else MaxSeverity (severity_ self) ERROR))
      (Call_UpdateSkewComparator (GetPath view)
       :: if empty_vector new_descriptions then []
          else [Call_UpgradeSeverity ERROR]).
Proof.
  intros Hs. unfold UpdateSkewComparator, bind, on_schema; simpl. rewrite Hs.
  destruct (Schema_UpdateSkewComparator view schema) as [schema' found].
  destruct found; reflexivity.
Qed.

Lemma run_operation_null op self :
  schema_ self = None → run_operation op self = NullSchema.
Proof.
  intros Hs.
  destruct op; simpl;
    unfold Update, CreateNewField, ObserveMissing, UpdateSkewComparator,
      bind, on_schema; simpl; by rewrite Hs.
Qed.

(** What any single operation does to an accumulator whose schema is set:
    it returns, keeps the schema set and the path, appends descriptions,
    and merges into the severity exactly what it hands to
    [UpgradeSeverity]. *)
Lemma run_operation_effect op self :
  is_Some (schema_ self) →
  ∃ status self' calls added,
    run_operation op self = Returns status self' calls
    ∧ is_Some (schema_ self')
    ∧ path_ self' = path_ self
    ∧ descriptions_ self' = descriptions_ self ++ added
    ∧ severity_ self'
      = fold_left MaxSeverity (upgrades calls) (severity_ self).
Proof.
  intros [schema Hs]. destruct op as [updater view|updater needed view| |view].
  - simpl. rewrite (Update_returns _ _ _ _ Hs).
    destruct (Schema_Update updater view schema)
      as [schema' [[[|code message] found] severity]].
    + by eexists _, _, _, found.
    + eexists _, _, _, []. by rewrite app_nil_r.
  - simpl. rewrite (CreateNewField_returns _ _ _ _ _ Hs).
    destruct (Schema_UpdateRecursively updater view needed schema)
      as [schema' [[[|code message] found] severity]].
    + by eexists _, _, _, found.
    + eexists _, _, _, []. by rewrite app_nil_r.
  - simpl. unfold bind. rewrite (ObserveMissing_returns _ _ Hs).
    by eexists _, _, _, [missing_column].
  - simpl. unfold bind. rewrite (UpdateSkewComparator_returns _ _ _ Hs).
    destruct (Schema_UpdateSkewComparator view schema) as [schema' found].
    destruct found as [|d found];
      [eexists _, _, _, [] | eexists _, _, _, (d :: found)];
      simpl; by repeat split.
Qed.

Lemma fold_MaxSeverity_ge severities start :
  (NumericalSeverity start
   ≤ NumericalSeverity (fold_left MaxSeverity severities start))%Z.
Proof.
  revert start. induction severities as [|s rest IH]; intros start; simpl.
  - lia.
  - etrans; [apply (MaxSeverity_ge start s) | apply IH].
Qed.

Lemma upgrades_app calls1 calls2 :
  upgrades (calls1 ++ calls2) = upgrades calls1 ++ upgrades calls2.
Proof. apply omap_app. Qed.

Lemma run_operations_effect ops self :
  is_Some (schema_ self) →
  ∃ self' calls added,
    run_operations ops self = Returns tt self' calls
    ∧ is_Some (schema_ self')
    ∧ path_ self' = path_ self
    ∧ descriptions_ self' = descriptions_ self ++ added
    ∧ severity_ self'
      = fold_left MaxSeverity (upgrades calls) (severity_ self).
Proof.
  revert self. induction ops as [|op rest IH]; intros self Hs.
  - exists self, [], []. by rewrite app_nil_r.
  - destruct (run_operation_effect op self Hs)
      as (status & self1 & calls1 & added1 & Hrun & Hs1 & Hp1 & Hd1 & Hv1).
    destruct (IH self1 Hs1)
      as (self2 & calls2 & added2 & Hrest & Hs2 & Hp2 & Hd2 & Hv2).
    exists self2, (calls1 ++ calls2), (added1 ++ added2).
    simpl. unfold bind. rewrite Hrun, Hrest.
    repeat split; [done | congruence | |].
    + by rewrite Hd2, Hd1, app_assoc.
    + by rewrite upgrades_app, fold_left_app, <- Hv1.
Qed.

Lemma upgrade_all_returns severities self :
  upgrade_all severities self
  = Returns tt
      (MkSchemaAnomaly (schema_ self) (path_ self) (descriptions_ self)
         (fold_left MaxSeverity severities (severity_ self)))
      (map Call_UpgradeSeverity severities).
Proof.
  revert self. induction severities as [|s rest IH]; intros self; simpl.
  - by destruct self.
  - unfold bind. simpl. by rewrite IH.
Qed.

(** What any single operation merges: on an accumulator whose schema is
    [schema] it returns, leaves the schema that [schema_after] gives, and
    hands to [UpgradeSeverity], and merges into the severity, exactly what
    [handed_severity] gives. *)
Lemma run_operation_merges op self schema :
  schema_ self = Some schema →
  ∃ status self' calls,
    run_operation op self = Returns status self' calls
    ∧ schema_ self' = Some (schema_after op (path_ self) schema)
    ∧ path_ self' = path_ self
    ∧ upgrades calls = option_list (handed_severity op schema)
    ∧ severity_ self'
      = fold_left MaxSeverity (option_list (handed_severity op schema))
          (severity_ self).
Proof.
  intros Hs. destruct op as [updater view|updater needed view| |view]; simpl.
  - rewrite (Update_returns _ _ _ _ Hs).
    destruct (Schema_Update updater view schema)
      as [schema' [[[|code message] found] severity]]; simpl;
      eexists _, _, _; split_and!; done.
  - rewrite (CreateNewField_returns _ _ _ _ _ Hs).
    destruct (Schema_UpdateRecursively updater view needed schema)
      as [schema' [[[|code message] found] severity]]; simpl;
      eexists _, _, _; split_and!; done.
  - unfold bind. rewrite (ObserveMissing_returns _ _ Hs).
    eexists _, _, _; split_and!; done.
  - unfold bind. rewrite (UpdateSkewComparator_returns _ _ _ Hs).
    destruct (Schema_UpdateSkewComparator view schema) as [schema' found].
    destruct found; simpl; eexists _, _, _; split_and!; done.
Qed.

Lemma run_operations_merges ops self schema :
  schema_ self = Some schema →
  ∃ self' calls,
    run_operations ops self = Returns tt self' calls
    ∧ upgrades calls = handed_severities ops (path_ self) schema
    ∧ severity_ self'
      = fold_left MaxSeverity (handed_severities ops (path_ self) schema)
          (severity_ self).
Proof.
  revert self schema. induction ops as [|op rest IH]; intros self schema Hs.
  - by exists self, [].
  - destruct (run_operation_merges op self schema Hs)
      as (status & self1 & calls1 & Hrun & Hs1 & Hp1 & Hc1 & Hv1).
    destruct (IH self1 _ Hs1) as (self2 & calls2 & Hrest & Hc2 & Hv2).
    exists self2, (calls1 ++ calls2). simpl. unfold bind.
    rewrite Hrun, Hrest. rewrite Hp1 in Hc2, Hv2. split_and!.
    + done.
    + by rewrite upgrades_app, Hc1, Hc2.
    + by rewrite fold_left_app, <- Hv1.
Qed.

(** The severities of steady operations can all be taken on one schema. *)
Lemma handed_severities_steady ops path schema schema0 :
  Forall steady ops →
  handed_severities ops path schema
  = omap (λ op, handed_severity op schema0) ops.
Proof.
  intros Hsteady. revert schema.
  induction Hsteady as [|op rest Hop _ IH]; intros schema; [done |].
  simpl. rewrite (Hop schema schema0), IH.
  by destruct (handed_severity op schema0).
Qed.

End AccumulatorFacts.

(** ** Claims on the severity merge, the aggregation and the accumulator *)

Section AccumulatorClaims.
Context {SchemaProto Schema Updater Config Stats : Type}.
Context {api : SchemaApi SchemaProto Schema Updater Config Stats}.
Implicit Types (self : SchemaAnomaly Schema) (schema : Schema).

(** C2, as the code has it. The severity merge is the maximum under
    UNKNOWN < WARNING < ERROR; it is commutative, associative and
    idempotent. A run of any sequence of operations on an accumulator whose
    schema is set returns; it hands to [UpgradeSeverity] the per-operation
    severities, each the one its operation yields on the schema the
    operations before it left (the evaluator's or the creation's severity
    when it succeeds, ERROR for a missing column, ERROR for a skew that is
    found), and leaves as severity the merge folded over them from the
    severity before the run; that fold is the same in whatever order those
    severities are taken. When the severity of no operation depends on the
    schema it runs on, the same operations applied in any other order leave
    the same severity. Upgrading by the same severities in two orders
    leaves the same accumulator. No operation, and no run of operations,
    ever lowers the severity. *)
Theorem C2_severity_merge :
  (∀ a b, NumericalSeverity (MaxSeverity a b)
          = Z.max (NumericalSeverity a) (NumericalSeverity b))
  ∧ (∀ a b, MaxSeverity a b = MaxSeverity b a)
  ∧ (∀ a b c, MaxSeverity a (MaxSeverity b c) = MaxSeverity (MaxSeverity a b) c)
  ∧ (∀ a, MaxSeverity a a = a)
  ∧ (∀ (ops : list Operation) self schema,
       schema_ self = Some schema →
       ∃ self' calls,
         run_operations ops self = Returns tt self' calls
         ∧ upgrades calls = handed_severities ops (path_ self) schema
         ∧ severity_ self'
           = fold_left MaxSeverity
               (handed_severities ops (path_ self) schema) (severity_ self)
         ∧ ∀ reordered,
             Permutation (handed_severities ops (path_ self) schema)
               reordered →
             severity_ self'
             = fold_left MaxSeverity reordered (severity_ self))
  ∧ (∀ (ops ops' : list Operation) self,
       is_Some (schema_ self) →
       Forall steady ops →
       Permutation ops ops' →
       ∃ self1 calls1 self2 calls2,
         run_operations ops self = Returns tt self1 calls1
         ∧ run_operations ops' self = Returns tt self2 calls2
         ∧ severity_ self1 = severity_ self2)
  ∧ (∀ severities reordered self,
       Permutation severities reordered →
       ∃ self' calls calls',
         upgrade_all severities self = Returns tt self' calls
         ∧ upgrade_all reordered self = Returns tt self' calls'
         ∧ severity_ self'
           = fold_left MaxSeverity severities (severity_ self))
  ∧ (∀ (op : Operation) self status self' calls,
       run_operation op self = Returns status self' calls →
       (NumericalSeverity (severity_ self)
        ≤ NumericalSeverity (severity_ self'))%Z)
  ∧ (∀ (ops : list Operation) self self' calls,
       run_operations ops self = Returns tt self' calls →
       (NumericalSeverity (severity_ self)
        ≤ NumericalSeverity (severity_ self'))%Z).
Proof.
  split_and!.
  - apply MaxSeverity_numerical.
  - apply MaxSeverity_comm.
  - apply MaxSeverity_assoc.
  - apply MaxSeverity_idem.
  - intros ops self schema Hs.
    destruct (run_operations_merges ops self schema Hs)
      as (self' & calls & Hrun & Hcalls & Hv).
    exists self', calls. split_and!; [done | done | done |].
    intros reordered Hperm. rewrite Hv. by apply fold_MaxSeverity_perm.
  - intros ops ops' self [schema Hs] Hsteady Hperm.
    assert (Forall steady ops') as Hsteady'.
    { rewrite Forall_forall in Hsteady |- *. intros op Hop.
      apply Hsteady. by rewrite Hperm. }
    destruct (run_operations_merges ops self schema Hs)
      as (self1 & calls1 & Hrun1 & _ & Hv1).
    destruct (run_operations_merges ops' self schema Hs)
      as (self2 & calls2 & Hrun2 & _ & Hv2).
    exists self1, calls1, self2, calls2. split_and!; [done | done |].
    rewrite Hv1, Hv2.
    rewrite (handed_severities_steady ops _ _ schema Hsteady).
    rewrite (handed_severities_steady ops' _ _ schema Hsteady').
    apply fold_MaxSeverity_perm. by rewrite Hperm.
  - intros severities reordered self Hperm. eexists _, _, _.
    rewrite !upgrade_all_returns.
    by rewrite (fold_MaxSeverity_perm _ _ Hperm).
  - intros op self status self' calls Hrun.
    destruct (schema_ self) as [schema|] eqn:Hs.
    + destruct (run_operation_effect op self (mk_is_Some _ _ Hs))
        as (status1 & self1 & calls1 & added & Hrun1 & _ & _ & _ & Hv).
      rewrite Hrun in Hrun1. injection Hrun1 as -> -> ->.
      rewrite Hv. apply fold_MaxSeverity_ge.
    + by rewrite (run_operation_null op self Hs) in Hrun.
  - intros ops self self' calls Hrun.
    destruct (schema_ self) as [schema|] eqn:Hs.
    + destruct (run_operations_merges ops self schema Hs)
        as (self1 & calls1 & Hrun1 & _ & Hv).
      rewrite Hrun in Hrun1. injection Hrun1 as -> ->.
      rewrite Hv. apply fold_MaxSeverity_ge.
    + destruct ops as [|op rest]; simpl in Hrun.
      * injection Hrun as <- _. lia.
      * unfold bind in Hrun.
        by rewrite (run_operation_null op self Hs) in Hrun.
Qed.

(** C6. On a non-empty list whose descriptions are all of kind
    SCHEMA_NEW_COLUMN the filter returns the list of the first description
    alone; on any other list it returns the list unchanged. An accumulator
    holding more than one description, all of kind SCHEMA_NEW_COLUMN,
    renders with exactly one reason, the first description, of that kind. *)
Theorem C6_filter_new_columns (descriptions : list Description) :
  (descriptions ≠ [] →
   Forall (λ d, type d = SCHEMA_NEW_COLUMN) descriptions →
   ∃ first rest,
     descriptions = first :: rest ∧ FilterDescriptions descriptions = [first])
  ∧ (¬ (descriptions ≠ []
        ∧ Forall (λ d, type d = SCHEMA_NEW_COLUMN) descriptions) →
     FilterDescriptions descriptions = descriptions)
  ∧ (∀ self existing_schema new_schema,
       descriptions_ self = descriptions →
       1 < length descriptions →
       Forall (λ d, type d = SCHEMA_NEW_COLUMN) descriptions →
       ∃ first,
         head descriptions = Some first
         ∧ info_reason (GetAnomalyInfoCommon existing_schema new_schema self)
           = [first]
         ∧ type first = SCHEMA_NEW_COLUMN).
Proof.
  split_and!.
  - intros Hne Hall. destruct descriptions as [|first rest]; [done |].
    exists first, rest. split; [done |]. by apply FilterDescriptions_collapse.
  - intros Hnot. destruct descriptions as [|first rest]; [done |].
    unfold FilterDescriptions.
    destruct (AllSchemaNewColumn (first :: rest)) eqn:Hall.
    + apply AllSchemaNewColumn_Forall in Hall. by destruct Hnot.
    + by rewrite andb_false_r.
  - intros self existing_schema new_schema Hself Hlen Hall.
    destruct descriptions as [|first rest]; [simpl in Hlen; lia |].
    exists first. split_and!; [done | | by inversion Hall].
    unfold GetAnomalyInfoCommon; simpl.
    rewrite Hself, (FilterDescriptions_collapse _ _ Hall). simpl.
    by destruct first.
Qed.

(** C7. The unified description is a left fold of the step below from the
    empty description: a running description with empty long text is
    replaced by the next one, kind included; a next description with empty
    long text is dropped; otherwise the result has the kind UNKNOWN_TYPE,
    the short text "Multiple errors" and as long text the running long text,
    one space and the next long text. The rendered entry takes its two
    texts from the unified description of the filtered list; for a
    SCHEMA_NEW_COLUMN description with long text "X" followed by a
    SCHEMA_MISSING_COLUMN one with long text "Y" it has two reasons, the
    short text "Multiple errors" and the long text "X Y". *)
Theorem C7_unify_descriptions :
  UnifyDescriptions [] = MkDescription UNKNOWN_TYPE "" ""
  ∧ (∀ descriptions next,
       UnifyDescriptions (descriptions ++ [next])
       = unify_step (UnifyDescriptions descriptions) next)
  ∧ (∀ running next,
       long_description running = "" → unify_step running next = next)
  ∧ (∀ running next,
       long_description running ≠ "" → long_description next = "" →
       unify_step running next = running)
  ∧ (∀ running next,
       long_description running ≠ "" → long_description next ≠ "" →
       unify_step running next
       = MkDescription UNKNOWN_TYPE "Multiple errors"
           (long_description running +:+ " " +:+ long_description next))
  ∧ (∀ self existing_schema new_schema,
       let info := GetAnomalyInfoCommon existing_schema new_schema self in
       let unified :=
         UnifyDescriptions (FilterDescriptions (descriptions_ self)) in
       info_description info = long_description unified
       ∧ info_short_description info = short_description unified)
  ∧ (∀ self existing_schema new_schema short_x short_y,
       descriptions_ self
       = [MkDescription SCHEMA_NEW_COLUMN short_x "X";
          MkDescription SCHEMA_MISSING_COLUMN short_y "Y"] →
       let info := GetAnomalyInfoCommon existing_schema new_schema self in
       length (info_reason info) = 2
       ∧ info_short_description info = "Multiple errors"
       ∧ info_description info = "X Y").
Proof.
  split_and!.
  - reflexivity.
  - apply UnifyDescriptions_snoc.
  - intros running next Hr. unfold unify_step. by rewrite bool_decide_eq_true_2.
  - intros running next Hr Hn. unfold unify_step.
    by rewrite bool_decide_eq_false_2, bool_decide_eq_true_2.
  - intros running next Hr Hn. unfold unify_step.
    by rewrite !bool_decide_eq_false_2.
  - done.
  - intros self existing_schema new_schema short_x short_y Hself.
    unfold GetAnomalyInfoCommon; simpl. by rewrite Hself.
Qed.

(** C8. On an accumulator whose schema is set, the skew update returns
    with every description the comparator returned appended; when that list
    is not empty the severity is ERROR whatever it was before (the
    comparator returns no severity of its own), and when it is empty the
    severity is unchanged. *)
Theorem C8_skew_escalates view self schema :
  schema_ self = Some schema →
  ∃ self' calls,
    UpdateSkewComparator view self = Returns tt self' calls
    ∧ descriptions_ self'
      = descriptions_ self ++ (Schema_UpdateSkewComparator view schema).2
    ∧ ((Schema_UpdateSkewComparator view schema).2 ≠ [] →
       severity_ self' = ERROR)
    ∧ ((Schema_UpdateSkewComparator view schema).2 = [] →
       severity_ self' = severity_ self).
Proof.
  intros Hs. rewrite (UpdateSkewComparator_returns _ _ _ Hs).
  destruct (Schema_UpdateSkewComparator view schema) as [schema' found].
  eexists _, _. split; [done |]. simpl.
  destruct found as [|d found]; split_and!; try done.
  intros _. apply MaxSeverity_ERROR.
Qed.

(** C9. On an accumulator whose schema is set, the update returns the
    evaluator's status. When the evaluator fails, the description list and
    the severity are what they were; when it succeeds, all the descriptions
    it returned are appended, in order, and its severity is merged. *)
Theorem C9_update_atomic updater view self schema :
  schema_ self = Some schema →
  let out := (Schema_Update updater view schema).2 in
  ∃ self' calls,
    Update updater view self = Returns out.1.1 self' calls
    ∧ path_ self' = path_ self
    ∧ (out.1.1 ≠ OK →
       descriptions_ self' = descriptions_ self
       ∧ severity_ self' = severity_ self)
    ∧ (out.1.1 = OK →
       descriptions_ self' = descriptions_ self ++ out.1.2
       ∧ severity_ self' = MaxSeverity (severity_ self) out.2).
Proof.
  intros Hs. rewrite (Update_returns _ _ _ _ Hs).
  destruct (Schema_Update updater view schema)
    as [schema' [[[|code message] found] severity]]; simpl;
    eexists _, _; split_and!; done.
Qed.

End AccumulatorClaims.

(** ** The anomaly set: get-or-create-or-discard *)

Section SetFacts.
Context {SchemaProto Schema Updater Config Stats Reasons : Type}.
Context {api : SchemaApi SchemaProto Schema Updater Config Stats}.
Implicit Types (self : SchemaAnomalies SchemaProto Schema).
Implicit Types (anomaly entry : SchemaAnomaly Schema) (path : Path).

Lemma ContainsKey_Some (anomalies : gmap Path (SchemaAnomaly Schema)) path entry :
  anomalies !! path = Some entry → ContainsKey anomalies path = true.
Proof. intros H. unfold ContainsKey. rewrite H. by apply bool_decide_eq_true_2. Qed.

Lemma ContainsKey_None (anomalies : gmap Path (SchemaAnomaly Schema)) path :
  anomalies !! path = None → ContainsKey anomalies path = false.
Proof.
  intros H. unfold ContainsKey. rewrite H.
  apply bool_decide_eq_false_2. by intros [? ?].
Qed.

(** The key is there: the mutation runs on the entry, in place, and the
    entry stays whatever the mutation returns. *)
Lemma GenericUpdate_present update path self entry :
  anomalies_ self !! path = Some entry →
  GenericUpdate update path self
  = match update entry with
    | Returns status entry' calls =>
        Returns status
          (MkSchemaAnomalies (serialized_baseline_ self)
             (<[path := entry']> (anomalies_ self)))
          calls
    | NullSchema => NullSchema
    | CheckFailed => CheckFailed
    end.
Proof.
  intros Hin. unfold GenericUpdate, bind, gets; simpl.
  rewrite (ContainsKey_Some _ _ _ Hin). unfold at_key. rewrite Hin; simpl.
  by destruct (update entry).
Qed.

(** The key is not there: a local accumulator is seeded and mutated, and
    it is written into the map only when both steps succeed and it is a
    problem. *)
Lemma GenericUpdate_absent update path self :
  anomalies_ self !! path = None →
  GenericUpdate update path self
  = let '(fresh, seeding) := Schema_Init (serialized_baseline_ self) in
    match seeding with
    | NotOk _ _ => Returns seeding self [Call_Init]
    | OK =>
        match update (MkSchemaAnomaly (Some fresh) path [] UNKNOWN) with
        | Returns OK schema_anomaly calls =>
            Returns OK
              (if is_problem schema_anomaly
               then MkSchemaAnomalies (serialized_baseline_ self)
                      (<[path := schema_anomaly]> (anomalies_ self))
               else self)
              (Call_Init :: calls)
        | Returns status _ calls => Returns status self (Call_Init :: calls)
        | NullSchema => NullSchema
        | CheckFailed => CheckFailed
        end
    end.
Proof.
  intros Hout. unfold GenericUpdate, bind, gets; simpl.
  rewrite (ContainsKey_None _ _ Hout).
  unfold on_local, bind, InitSchema; simpl.
  destruct (Schema_Init (serialized_baseline_ self)) as [fresh [|code message]];
    simpl; [| done].
  unfold set_schema; simpl.
  destruct (update _) as [[|code message] local calls| |]; simpl; try done.
  - destruct (is_problem local); simpl; by rewrite app_nil_r.
  - by rewrite app_nil_r.
Qed.

(** ** The tree walk, branch by branch *)

Implicit Types (view : FeatureStatsView Stats) (needed : option (gset Path)).

Lemma FeatureStatsView_nested_ind (P : FeatureStatsView Stats → Prop) :
  (∀ path stats children,
     Forall P children → P (MkFeatureStatsView path stats children)) →
  ∀ view, P view.
Proof.
  intros step. fix IH 1. intros [path stats children]. apply step.
  induction children as [|child rest IHrest]; constructor; [apply IH | done].
Qed.

(** The baseline does not parse: the walk returns that status at once. *)
Lemma walk_seeding_fails view needed updater self broken code message :
  Schema_Init (serialized_baseline_ self) = (broken, NotOk code message) →
  FindChangesRecursively view needed updater self
  = Returns (NotOk code message) self [Enter (GetPath view); Call_Init].
Proof.
  intros Hinit. destruct view as [path stats children]; simpl.
  unfold bind, InitSchema_baseline, bind; simpl. by rewrite Hinit.
Qed.

(** The feature is deprecated in the baseline. *)
Lemma walk_deprecated view needed updater self baseline :
  Schema_Init (serialized_baseline_ self) = (baseline, OK) →
  Schema_FeatureExists (GetPath view) baseline = true →
  Schema_FeatureIsDeprecated (GetPath view) baseline = true →
  FindChangesRecursively view needed updater self
  = Returns OK self [Enter (GetPath view); Call_Init].
Proof.
  intros Hinit Hex Hdep. destruct view as [path stats children]; simpl in *.
  unfold bind, InitSchema_baseline, bind; simpl. rewrite Hinit; simpl.
  by rewrite Hex, Hdep.
Qed.

(** The feature is in the baseline and not deprecated there. *)
Lemma walk_validated view needed updater self baseline :
  Schema_Init (serialized_baseline_ self) = (baseline, OK) →
  Schema_FeatureExists (GetPath view) baseline = true →
  Schema_FeatureIsDeprecated (GetPath view) baseline = false →
  FindChangesRecursively view needed updater self
  = match GenericUpdate (Update updater view) (GetPath view) self with
    | Returns OK self1 calls1 =>
        if reports_deprecated (GetPath view) self1
        then Returns OK self1 (Enter (GetPath view) :: Call_Init :: calls1)
        else
          match
            for_each (λ child, FindChangesRecursively child needed updater)
              (GetChildren view) self1
          with
          | Returns status self2 calls2 =>
              Returns status self2
                (Enter (GetPath view) :: Call_Init :: calls1 ++ calls2)
          | NullSchema => NullSchema
          | CheckFailed => CheckFailed
          end
    | Returns status self1 calls1 =>
        Returns status self1 (Enter (GetPath view) :: Call_Init :: calls1)
    | NullSchema => NullSchema
    | CheckFailed => CheckFailed
    end.
Proof.
  intros Hinit Hex Hdep. destruct view as [path stats children]; simpl in *.
  unfold bind, InitSchema_baseline, bind, gets, call, ret; simpl.
  rewrite Hinit; simpl. rewrite Hex, Hdep.
  destruct (GenericUpdate _ path self) as [[|code message] self1 calls1| |];
    simpl; try done.
  - fold (reports_deprecated path self1).
    destruct (reports_deprecated path self1); simpl.
    + by rewrite app_nil_r.
    + by destruct (for_each _ children self1).
  - by rewrite app_nil_r.
Qed.

(** The test of the creation branch, and what it runs the creation on: the
    entry of the path if there is one, a fresh accumulator seeded from the
    baseline otherwise. *)
Lemma walk_created view needed updater self baseline :
  Schema_Init (serialized_baseline_ self) = (baseline, OK) →
  Schema_FeatureExists (GetPath view) baseline = false →
  ShouldCreateFeature needed view = true →
  FindChangesRecursively view needed updater self
  = match
      CreateNewField updater needed view
        (default (MkSchemaAnomaly (Some baseline) (GetPath view) [] UNKNOWN)
           (anomalies_ self !! GetPath view))
    with
    | Returns status entry calls =>
        Returns status
          (MkSchemaAnomalies (serialized_baseline_ self)
             (<[GetPath view := entry]> (anomalies_ self)))
          (Enter (GetPath view) :: Call_Init
           :: (if ContainsKey (anomalies_ self) (GetPath view) then []
               else [Call_Init])
           ++ calls)
    | NullSchema => NullSchema
    | CheckFailed => CheckFailed
    end.
Proof.
  intros Hinit Hex Hcreate.
  assert (ShouldCreateFeature needed
            (MkFeatureStatsView (GetPath view) (GetStats view)
               (GetChildren view)) = true) as Hcreate'
    by (by destruct view).
  destruct view as [path stats children]; simpl in *.
  unfold bind, InitSchema_baseline, bind, gets, call, ret; simpl.
  rewrite Hinit; simpl. rewrite Hex, Hcreate'.
  destruct (anomalies_ self !! path) as [entry|] eqn:Hlook.
  - rewrite (ContainsKey_Some _ _ _ Hlook); simpl.
    unfold at_key; simpl. rewrite Hlook; simpl.
    destruct (CreateNewField _ _ _ entry) as [[|code message] entry' calls| |];
      simpl; try done; by rewrite app_nil_r.
  - rewrite (ContainsKey_None _ _ Hlook); simpl.
    unfold on_local, bind, InitSchema, set_path, modify, ret, assign, modify;
      simpl.
    rewrite Hinit; simpl.
    unfold at_key; simpl. rewrite lookup_insert_eq; simpl.
    unfold set_schema; simpl.
    destruct (CreateNewField _ _ _ _) as [[|code message] entry' calls| |];
      simpl; try done; by rewrite insert_insert_eq, ?app_nil_r.
Qed.

(** The feature is new and the filter does not ask for it. *)
Lemma walk_ignored view needed updater self baseline :
  Schema_Init (serialized_baseline_ self) = (baseline, OK) →
  Schema_FeatureExists (GetPath view) baseline = false →
  ShouldCreateFeature needed view = false →
  FindChangesRecursively view needed updater self
  = Returns OK self [Enter (GetPath view); Call_Init].
Proof.
  intros Hinit Hex Hcreate.
  assert (ShouldCreateFeature needed
            (MkFeatureStatsView (GetPath view) (GetStats view)
               (GetChildren view)) = false) as Hcreate'
    by (by destruct view).
  destruct view as [path stats children]; simpl in *.
  unfold bind, InitSchema_baseline, bind, gets, call, ret; simpl.
  rewrite Hinit; simpl. by rewrite Hex, Hcreate'.
Qed.

Lemma ShouldCreateFeature_true needed view :
  ShouldCreateFeature needed view = true
  ↔ needed = None ∨ ∃ paths, needed = Some paths ∧ GetPath view ∈ paths.
Proof.
  unfold ShouldCreateFeature. destruct needed as [paths|].
  - rewrite bool_decide_eq_true. split.
    + intros Hin. right. by exists paths.
    + intros [? | (paths' & [= <-] & Hin)]; done.
  - split; [by left | done].
Qed.

(** What the in-place update records: nothing but the seeding of a new
    accumulator, the call of the evaluator and the merge of its severity. *)
Lemma GenericUpdate_Update_calls updater view path self status self1 calls1 :
  GenericUpdate (Update updater view) path self = Returns status self1 calls1 →
  Forall (λ c, ∀ q, c ≠ Enter q ∧ c ≠ Call_UpdateRecursively q) calls1.
Proof.
  destruct (anomalies_ self !! path) as [entry|] eqn:Hlook.
  - rewrite (GenericUpdate_present _ _ _ _ Hlook).
    destruct (schema_ entry) as [schema|] eqn:Hs.
    + rewrite (Update_returns _ _ _ _ Hs).
      destruct (Schema_Update updater view schema)
        as [schema' [[[|code message] found] severity]];
        intros [= <- <- <-]; repeat constructor; done.
    + pose proof (run_operation_null (Do_Update updater view) entry Hs) as Hn.
      simpl in Hn. by rewrite Hn.
  - rewrite (GenericUpdate_absent _ _ _ Hlook).
    destruct (Schema_Init (serialized_baseline_ self))
      as [fresh [|code message]].
    + rewrite (Update_returns _ _ (MkSchemaAnomaly (Some fresh) path [] UNKNOWN)
                 fresh eq_refl).
      destruct (Schema_Update updater view fresh)
        as [schema' [[[|code' message'] found] severity]];
        intros [= <- <- <-]; repeat constructor; done.
    + intros [= <- <- <-]. repeat constructor; done.
Qed.

(** [GenericUpdate] touches no entry but the one of its path. *)
Lemma GenericUpdate_other update path self status self' calls path' :
  path' ≠ path →
  GenericUpdate update path self = Returns status self' calls →
  anomalies_ self' !! path' = anomalies_ self !! path'.
Proof.
  intros Hne.
  destruct (anomalies_ self !! path) as [entry|] eqn:Hlook.
  - rewrite (GenericUpdate_present _ _ _ _ Hlook).
    destruct (update entry) as [status1 entry' calls1| |]; [| done | done].
    intros [= <- <- <-]. simpl. by rewrite lookup_insert_ne.
  - rewrite (GenericUpdate_absent _ _ _ Hlook).
    destruct (Schema_Init (serialized_baseline_ self))
      as [fresh [|code message]].
    + destruct (update _) as [[|code message] local calls'| |]; try done.
      * intros [= <- <- <-]. destruct (is_problem local); [| done].
        simpl. by rewrite lookup_insert_ne.
      * by intros [= <- <- <-].
    + by intros [= <- <- <-].
Qed.

Lemma for_each_one {S A} (f : A → M S Status) x s :
  for_each f [x] s = f x s.
Proof.
  simpl. unfold bind.
  destruct (f x s) as [[|code message] s1 calls1| |]; simpl;
    by rewrite ?app_nil_r.
Qed.

(** An invariant every step of a loop keeps, whatever the step returns, is
    kept by the loop. *)
Lemma for_each_preserves {S A} (Inv : S → Prop) (f : A → M S Status) range :
  Forall (λ x, ∀ s status s' calls,
            Inv s → f x s = Returns status s' calls → Inv s') range →
  ∀ s status s' calls,
    Inv s → for_each f range s = Returns status s' calls → Inv s'.
Proof.
  induction 1 as [|x rest Hx _ IH]; intros s status s' calls Hinv; simpl.
  - unfold ret. by intros [= <- <- <-].
  - unfold bind.
    destruct (f x s) as [[|code message] s1 calls1| |] eqn:Hfx; try done.
    + destruct (for_each f rest s1) as [status2 s2 calls2| |] eqn:Hrest;
        [| done | done].
      intros [= <- <- <-]. eapply IH; [| done]. by eapply Hx.
    + simpl. intros [= <- <- <-]. by eapply Hx.
Qed.

(** ** Claims on the anomaly set and the tree walk *)

(** C10. For a path with no entry in the map: when seeding the new
    accumulator from the baseline fails, or when seeding succeeds and the
    mutation fails on the seeded accumulator, [GenericUpdate] returns that
    failure and leaves the anomaly set exactly as it was. *)
Theorem C10_failed_first_touch update path self :
  anomalies_ self !! path = None →
  (∀ broken code message,
     Schema_Init (serialized_baseline_ self) = (broken, NotOk code message) →
     GenericUpdate update path self
     = Returns (NotOk code message) self [Call_Init])
  ∧ (∀ fresh code message discarded calls,
       Schema_Init (serialized_baseline_ self) = (fresh, OK) →
       update (MkSchemaAnomaly (Some fresh) path [] UNKNOWN)
       = Returns (NotOk code message) discarded calls →
       GenericUpdate update path self
       = Returns (NotOk code message) self (Call_Init :: calls)).
Proof.
  intros Hout. split.
  - intros broken code message Hinit.
    by rewrite (GenericUpdate_absent _ _ _ Hout), Hinit.
  - intros fresh code message discarded calls Hinit Hupdate.
    by rewrite (GenericUpdate_absent _ _ _ Hout), Hinit, Hupdate.
Qed.

(** C4. For a node whose path is in the baseline: when the baseline marks
    it deprecated, the walk returns OK with the anomaly set untouched,
    having recorded its own activation and the parse of the baseline and
    nothing else: no call of the evaluator or of the recursive creation, no
    activation on a child. When it is not deprecated and the in-place update
    returns OK leaving a committed accumulator that reports the feature
    deprecated, the walk returns at that point: its record is its own
    activation, the parse of the baseline and what the update recorded,
    which holds no activation. *)
Theorem C4_deprecated_stops view needed updater self baseline :
  Schema_Init (serialized_baseline_ self) = (baseline, OK) →
  Schema_FeatureExists (GetPath view) baseline = true →
  (Schema_FeatureIsDeprecated (GetPath view) baseline = true →
   FindChangesRecursively view needed updater self
   = Returns OK self [Enter (GetPath view); Call_Init])
  ∧ (Schema_FeatureIsDeprecated (GetPath view) baseline = false →
     ∀ self1 calls1,
       GenericUpdate (Update updater view) (GetPath view) self
       = Returns OK self1 calls1 →
       reports_deprecated (GetPath view) self1 = true →
       FindChangesRecursively view needed updater self
       = Returns OK self1 (Enter (GetPath view) :: Call_Init :: calls1)
       ∧ Forall (λ c, ∀ q, c ≠ Enter q ∧ c ≠ Call_UpdateRecursively q)
           calls1).
Proof.
  intros Hinit Hex. split.
  - intros Hdep. by apply (walk_deprecated _ _ _ _ baseline).
  - intros Hdep self1 calls1 Hupdate Hreports. split.
    + by rewrite (walk_validated _ _ _ _ baseline), Hupdate, Hreports.
    + by eapply GenericUpdate_Update_calls.
Qed.

(** C3, as the code has it. For a node whose path is not in the baseline:
    the creation filter lets it through exactly when it is unrestricted or
    contains the path. Then the recursive creation runs once on the entry of
    the path when the map has one, and otherwise on a fresh accumulator
    seeded from the baseline, and the result is the entry of the path; the
    walk returns the status of the creation without an activation on any
    child. When the filter does not let the node through, the walk returns
    OK and leaves the anomaly set as it was; so, from an empty map, when the
    statistics have that node as only root, the required paths do not
    contain its path and the missing-feature sweep does not name it,
    FindChanges leaves no entry for the path. *)
Theorem C3_creation_branch view needed updater self baseline :
  Schema_Init (serialized_baseline_ self) = (baseline, OK) →
  Schema_FeatureExists (GetPath view) baseline = false →
  let path := GetPath view in
  let target :=
    default (MkSchemaAnomaly (Some baseline) path [] UNKNOWN)
      (anomalies_ self !! path) in
  (ShouldCreateFeature needed view = true
   ↔ needed = None ∨ ∃ paths, needed = Some paths ∧ path ∈ paths)
  ∧ (ShouldCreateFeature needed view = true →
     is_Some (schema_ target) →
     ∃ status entry calls,
       CreateNewField updater needed view target = Returns status entry calls
       ∧ FindChangesRecursively view needed updater self
         = Returns status
             (MkSchemaAnomalies (serialized_baseline_ self)
                (<[path := entry]> (anomalies_ self)))
             (Enter path :: Call_Init
              :: (if ContainsKey (anomalies_ self) path then []
                  else [Call_Init])
              ++ calls)
       ∧ (calls = [Call_UpdateRecursively path]
          ∨ ∃ severity,
              calls = [Call_UpdateRecursively path;
                       Call_UpgradeSeverity severity]))
  ∧ (ShouldCreateFeature needed view = false →
     FindChangesRecursively view needed updater self
     = Returns OK self [Enter path; Call_Init])
  ∧ (∀ (statistics : DatasetStatsView Stats)
       (required : gmap Path Reasons) config status self' calls,
       anomalies_ self = ∅ →
       GetRootFeatures statistics = [view] →
       path ∉ dom required →
       path ∉ Schema_GetMissingPaths statistics baseline →
       FindChanges statistics (Some required) config self
       = Returns status self' calls →
       anomalies_ self' !! path = None).
Proof.
  intros Hinit Hex path target. split_and!.
  - apply ShouldCreateFeature_true.
  - intros Hcreate [schema Hs].
    rewrite (walk_created _ _ _ _ baseline) by done.
    fold path. fold target.
    rewrite (CreateNewField_returns _ _ _ _ _ Hs).
    destruct (Schema_UpdateRecursively updater view needed schema)
      as [schema' [[[|code message] found] severity]].
    + eexists _, _, _. split_and!; [done | done |]. right. by eexists.
    + eexists _, _, _. split_and!; [done | done |]. by left.
  - intros Hignore. by apply (walk_ignored _ _ _ _ baseline).
  - intros statistics required config status self' calls
      Hempty Hroots Hrequired Hmissing.
    unfold FindChanges, bind. rewrite Hroots, for_each_one.
    rewrite (walk_ignored _ _ _ _ baseline Hinit Hex)
      by (by apply bool_decide_eq_false_2).
    unfold InitSchema_baseline, bind, gets, call, ret; simpl.
    rewrite Hinit; simpl.
    destruct (for_each _ (Schema_GetMissingPaths statistics baseline) self)
      as [status1 self1 calls1| |] eqn:Hsweep; [| done | done].
    assert (anomalies_ self1 !! path = None) as Hnone.
    { eapply (for_each_preserves (λ s, anomalies_ s !! path = None));
        [| | exact Hsweep].
      - apply Forall_forall. intros missing Hin s st s' calls' Hs Hupdate.
        rewrite <- Hs. eapply GenericUpdate_other; [| exact Hupdate].
        intros ->. apply Hmissing. by apply list_elem_of_In, list_elem_of_In.
      - by rewrite Hempty. }
    destruct status1; simpl; by intros [= <- <- <-].
Qed.

(** ** The map holds problems only *)










(** C5. On an accumulator whose schema is set, [ObserveMissing] appends
    exactly the description {SCHEMA_MISSING_COLUMN, "Column dropped",
    "Column is completely missing"}, leaves the severity at ERROR and
    deprecates the accumulator's path in its own schema. Hence, from a new
    anomaly set whose baseline parses: when the statistics have the single
    root [a], without children, [a] is in the baseline and not deprecated,
    the evaluator succeeds on it with no description and severity UNKNOWN,
    and [b] is the one path of the baseline missing from the statistics,
    FindChanges returns OK and the report has exactly one entry, under the
    serialisation of [b], with severity ERROR and that one reason. *)
Theorem C5_missing_feature :
  (∀ (anomaly : SchemaAnomaly Schema) schema,
     schema_ anomaly = Some schema →
     ObserveMissing anomaly
     = Returns tt
         (MkSchemaAnomaly
            (Some (Schema_DeprecateFeature (path_ anomaly) schema))
            (path_ anomaly)
            (descriptions_ anomaly
             ++ [MkDescription SCHEMA_MISSING_COLUMN "Column dropped"
                   "Column is completely missing"])
            ERROR)
         [Call_UpgradeSeverity ERROR;
          Call_DeprecateFeature (path_ anomaly)])
  ∧ (∀ proto baseline (statistics : DatasetStatsView Stats)
       (required : option (gmap Path Reasons)) config a b stats_a kept,
       Schema_Init proto = (baseline, OK) →
       GetRootFeatures statistics = [MkFeatureStatsView a stats_a []] →
       Schema_FeatureExists a baseline = true →
       Schema_FeatureIsDeprecated a baseline = false →
       Schema_Update (Updater_new config) (MkFeatureStatsView a stats_a [])
         baseline
       = (kept, (OK, [], UNKNOWN)) →
       Schema_GetMissingPaths statistics baseline = [b] →
       ∃ self' calls,
         FindChanges statistics required config (MkSchemaAnomalies proto ∅)
         = Returns OK self' calls
         ∧ GetSchemaDiff self'
           = Some
               (MkAnomalies proto SERIALIZED_PATH
                  {[ Path_Serialize b :=
                       MkAnomalyInfo b
                         [MkDescription SCHEMA_MISSING_COLUMN
                            "Column dropped" "Column is completely missing"]
                         "Column is completely missing" "Column dropped"
                         ERROR ]})).
Proof.
  split.
  - intros anomaly schema Hs.
    by rewrite (ObserveMissing_returns _ _ Hs), MaxSeverity_ERROR.
  - intros proto baseline statistics required config a b stats_a kept
      Hinit Hroots Hex Hdep Hsatisfied Hmissing.
    set (self := MkSchemaAnomalies proto ∅).
    set (view := MkFeatureStatsView a stats_a []) in *.
    assert (FindChangesRecursively view (dom <$> required)
              (Updater_new config) self
            = Returns OK self
                [Enter a; Call_Init; Call_Init; Call_Update a;
                 Call_UpgradeSeverity UNKNOWN]) as Hwalk.
    { rewrite (walk_validated view _ _ self baseline) by done.
      rewrite (GenericUpdate_absent _ _ self) by apply lookup_empty.
      simpl. rewrite Hinit.
      rewrite (Update_returns _ _ (MkSchemaAnomaly (Some baseline) a [] UNKNOWN)
                 baseline eq_refl).
      rewrite Hsatisfied. simpl.
      unfold reports_deprecated; simpl.
      by rewrite (ContainsKey_None _ _ (lookup_empty a)). }
    set (missing :=
           MkSchemaAnomaly (Some (Schema_DeprecateFeature b baseline)) b
             [missing_column] ERROR).
    exists (MkSchemaAnomalies proto {[ b := missing ]}). eexists.
    split.
    + unfold FindChanges, bind. rewrite Hroots, for_each_one, Hwalk.
      unfold InitSchema_baseline, bind, gets, call, ret; simpl.
      rewrite Hinit, Hmissing, for_each_one.
      rewrite (GenericUpdate_absent _ _ self) by apply lookup_empty.
      simpl. rewrite Hinit. unfold bind; simpl.
      by rewrite insert_empty.
    + unfold GetSchemaDiff; simpl. rewrite map_to_list_singleton. simpl.
      by rewrite insert_empty.
Qed.

End SetFacts.

(** ** The claims on the small instance *)

Section OnToy.
Import Toy.

(** A first sweep leads to [after_first_sweep], and a failed creation to
    [after_failed_creation]. *)
Lemma after_first_sweep_reachable :
  reachable (Reasons := unit) after_first_sweep.
Proof.
  eapply (reachable_FindChanges (new_set ab) (single z clean) None tt);
    [constructor | reflexivity].
Qed.


(** What the failed creation leaves: the walk returns the failure, the map
    keeps the accumulator it committed beforehand, and the report renders
    it with no reason and severity UNKNOWN. *)
Example failed_creation_leaves_clean_entry :
  FindChangesRecursively (leaf z unreadable) None tt (new_set ab)
  = Returns (NotOk 3 "unsupported statistics") after_failed_creation
      [Enter z; Call_Init; Call_Init; Call_UpdateRecursively z]
  ∧ anomaly_info <$> GetSchemaDiff after_failed_creation
    = Some {[ "z" := MkAnomalyInfo z [] "" "" UNKNOWN ]}.
Proof. split; vm_compute; reflexivity. Qed.


(** What a second walk over the new feature [z] leaves: the entry of the
    first sweep with the description of the new column once more. *)
Example second_walk_reuses_entry :
  descriptions_ <$> anomalies_ after_first_sweep !! z = Some [new_column]
  ∧ descriptions_
      <$> anomalies_
            (state_of after_first_sweep
               (FindChangesRecursively (leaf z clean) None tt
                  after_first_sweep)) !! z
    = Some [new_column; new_column].
Proof. split; vm_compute; reflexivity. Qed.

(** C3 as stated fails: after a first sweep committed an accumulator for
    the new feature [z], a second walk over [z] runs the creation on that
    accumulator, and the entry holds the description of the new column
    twice; a fresh accumulator would hold it once. *)
Lemma C3_counterexample : ¬ creation_never_reuses (api := Toy.api).
Proof.
  intros Hclaim.
  assert (FindChangesRecursively (leaf z clean) None tt after_first_sweep
          = Returns OK
              (state_of after_first_sweep
                 (FindChangesRecursively (leaf z clean) None tt
                    after_first_sweep))
              [Enter z; Call_Init; Call_UpdateRecursively z;
               Call_UpgradeSeverity ERROR]) as Hwalk
    by (vm_compute; reflexivity).
  destruct (Hclaim (leaf z clean) None tt after_first_sweep
              [(a, false); (b, false)] _ _ _ eq_refl eq_refl eq_refl Hwalk)
    as (status & entry & calls & Hfresh & Hentry).
  vm_compute in Hfresh. vm_compute in Hentry.
  injection Hfresh as _ <- _. discriminate Hentry.
Qed.

(** The two updates of [Lifecycle] on the accumulator of [a] seeded from
    [ab]: with the warning first, the feature is deprecated when the second
    update runs, which then finds nothing; with the error first, the error
    is merged. *)
Example order_of_updates :
  handed_severities (api := Lifecycle.api)
    [Lifecycle.retire_a; Lifecycle.drop_a] a [(a, false); (b, false)]
  = [WARNING; UNKNOWN]
  ∧ handed_severities (api := Lifecycle.api)
      [Lifecycle.drop_a; Lifecycle.retire_a] a [(a, false); (b, false)]
    = [ERROR; UNKNOWN].
Proof. split; vm_compute; reflexivity. Qed.

(** C2 as stated fails: with an evaluator that leaves deprecated features
    out of validation, the two updates of [Lifecycle] leave severity WARNING
    in one order and ERROR in the other. *)
Lemma C2_counterexample : ¬ order_independent (api := Lifecycle.api).
Proof.
  intros Hclaim.
  assert (run_operations (api := Lifecycle.api)
            [Lifecycle.retire_a; Lifecycle.drop_a] (seeded a)
          = Returns tt
              (MkSchemaAnomaly (Some [(a, true); (b, false)]) a
                 [out_of_range] WARNING)
              [Call_Update a; Call_UpgradeSeverity WARNING;
               Call_Update a; Call_UpgradeSeverity UNKNOWN]) as Hfirst
    by (vm_compute; reflexivity).
  assert (run_operations (api := Lifecycle.api)
            [Lifecycle.drop_a; Lifecycle.retire_a] (seeded a)
          = Returns tt
              (MkSchemaAnomaly (Some [(a, true); (b, false)]) a
                 [out_of_range] ERROR)
              [Call_Update a; Call_UpgradeSeverity ERROR;
               Call_Update a; Call_UpgradeSeverity UNKNOWN]) as Hsecond
    by (vm_compute; reflexivity).
  pose proof (Hclaim _ _ _ _ _ _ _ (perm_swap _ _ []) Hfirst Hsecond) as Hsame.
  discriminate Hsame.
Qed.

Lemma C2_witness :
  (∃ self' calls,
     run_operations
       [Do_Update tt (leaf a flagged); Do_ObserveMissing;
        Do_UpdateSkewComparator (leaf a skewed)]
       (seeded a)
     = Returns tt self' calls
     ∧ upgrades calls = [WARNING; ERROR; ERROR]
     ∧ severity_ self'
       = fold_left MaxSeverity [WARNING; ERROR; ERROR] UNKNOWN
     ∧ ∀ reordered,
         Permutation [WARNING; ERROR; ERROR] reordered →
         severity_ self' = fold_left MaxSeverity reordered UNKNOWN)
  ∧ ∃ self1 calls1 self2 calls2,
      run_operations
        [Do_Update tt (leaf a flagged); Do_ObserveMissing;
         Do_UpdateSkewComparator (leaf a skewed)]
        (seeded a)
      = Returns tt self1 calls1
      ∧ run_operations
          [Do_ObserveMissing; Do_Update tt (leaf a flagged);
           Do_UpdateSkewComparator (leaf a skewed)]
          (seeded a)
        = Returns tt self2 calls2
      ∧ severity_ self1 = severity_ self2.
Proof.
  split.
  - apply (proj1 (proj2 (proj2 (proj2 (proj2
             (C2_severity_merge (api := Toy.api))))))
             [Do_Update tt (leaf a flagged); Do_ObserveMissing;
              Do_UpdateSkewComparator (leaf a skewed)]
             (seeded a) [(a, false); (b, false)]).
    reflexivity.
  - apply (proj1 (proj2 (proj2 (proj2 (proj2 (proj2
             (C2_severity_merge (api := Toy.api)))))))).
    + by eexists.
    + repeat constructor; intros schema schema'; reflexivity.
    + apply perm_swap.
Defined.

Lemma C3_witness :
  ∃ status entry calls,
    CreateNewField tt None (leaf z clean)
      (default (MkSchemaAnomaly (Some [(a, false); (b, false)]) z [] UNKNOWN)
         (anomalies_ after_first_sweep !! z))
    = Returns status entry calls
    ∧ FindChangesRecursively (leaf z clean) None tt after_first_sweep
      = Returns status
          (MkSchemaAnomalies (serialized_baseline_ after_first_sweep)
             (<[z := entry]> (anomalies_ after_first_sweep)))
          (Enter z :: Call_Init
           :: (if ContainsKey (anomalies_ after_first_sweep) z then []
               else [Call_Init])
           ++ calls)
    ∧ (calls = [Call_UpdateRecursively z]
       ∨ ∃ severity,
           calls = [Call_UpdateRecursively z; Call_UpgradeSeverity severity]).
Proof.
  apply (proj1 (proj2
           (C3_creation_branch (api := Toy.api) (Reasons := unit)
              (leaf z clean) None tt
              after_first_sweep [(a, false); (b, false)] eq_refl eq_refl))).
  - reflexivity.
  - vm_compute. by eexists.
Defined.

Lemma C4_witness :
  FindChangesRecursively (a_with_child flagged) None tt (new_set a_deprecated)
  = Returns OK (new_set a_deprecated) [Enter a; Call_Init]
  ∧ FindChangesRecursively (a_with_child dropping) None tt (new_set ab)
    = Returns OK
        (state_of (new_set ab)
           (GenericUpdate (Update tt (a_with_child dropping)) a (new_set ab)))
        [Enter a; Call_Init; Call_Init; Call_Update a;
         Call_UpgradeSeverity ERROR].
Proof.
  split.
  - apply (proj1
             (C4_deprecated_stops (api := Toy.api) (a_with_child flagged) None
                tt (new_set a_deprecated) [(a, true); (b, false)]
                eq_refl eq_refl)).
    reflexivity.
  - apply (proj2
             (C4_deprecated_stops (api := Toy.api) (a_with_child dropping)
                None tt (new_set ab) [(a, false); (b, false)]
                eq_refl eq_refl)).
    + reflexivity.
    + reflexivity.
    + reflexivity.
Defined.

Lemma C5_witness :
  ∃ self' calls,
    FindChanges (Reasons := unit) (single a clean) None tt (new_set ab)
    = Returns OK self' calls
    ∧ GetSchemaDiff self'
      = Some
          (MkAnomalies ab SERIALIZED_PATH
             {[ "b" :=
                  MkAnomalyInfo b
                    [MkDescription SCHEMA_MISSING_COLUMN "Column dropped"
                       "Column is completely missing"]
                    "Column is completely missing" "Column dropped" ERROR ]}).
Proof.
  apply (proj2 (C5_missing_feature (api := Toy.api) (Reasons := unit))
           ab [(a, false); (b, false)] (single a clean) None tt a b clean
           [(a, false); (b, false)]);
    reflexivity.
Defined.

Lemma C6_witness :
  ∃ first,
    head five_new = Some first
    ∧ info_reason
        (GetAnomalyInfoCommon "" ""
           (MkSchemaAnomaly (Some [(a, false); (b, false)]) z five_new ERROR))
      = [first]
    ∧ type first = SCHEMA_NEW_COLUMN.
Proof.
  apply (proj2 (proj2 (C6_filter_new_columns five_new))).
  - reflexivity.
  - simpl. lia.
  - repeat constructor.
Defined.

Lemma C7_witness :
  let info := GetAnomalyInfoCommon "" "" mixed in
  length (info_reason info) = 2
  ∧ info_short_description info = "Multiple errors"
  ∧ info_description info = "X Y".
Proof.
  apply (proj2 (proj2 (proj2 (proj2 (proj2 (proj2
           (C7_unify_descriptions (Schema := Toy.Schema)))))))
           mixed "" "" "New column" "Column dropped").
  reflexivity.
Defined.

Lemma C8_witness :
  ∃ self' calls,
    UpdateSkewComparator (leaf a skewed) warned = Returns tt self' calls
    ∧ descriptions_ self'
      = descriptions_ warned
        ++ (Schema_UpdateSkewComparator (leaf a skewed)
              [(a, false); (b, false)]).2
    ∧ ((Schema_UpdateSkewComparator (leaf a skewed)
          [(a, false); (b, false)]).2 ≠ [] →
       severity_ self' = ERROR)
    ∧ ((Schema_UpdateSkewComparator (leaf a skewed)
          [(a, false); (b, false)]).2 = [] →
       severity_ self' = severity_ warned).
Proof.
  apply (C8_skew_escalates (api := Toy.api) (leaf a skewed) warned
           [(a, false); (b, false)]).
  reflexivity.
Defined.

Lemma C9_witness :
  let out :=
    (Schema_Update tt (leaf a unreadable) [(a, false); (b, false)]).2 in
  ∃ self' calls,
    Update tt (leaf a unreadable) warned = Returns out.1.1 self' calls
    ∧ path_ self' = path_ warned
    ∧ (out.1.1 ≠ OK →
       descriptions_ self' = descriptions_ warned
       ∧ severity_ self' = severity_ warned)
    ∧ (out.1.1 = OK →
       descriptions_ self' = descriptions_ warned ++ out.1.2
       ∧ severity_ self' = MaxSeverity (severity_ warned) out.2).
Proof.
  apply (C9_update_atomic (api := Toy.api) tt (leaf a unreadable) warned
           [(a, false); (b, false)]).
  reflexivity.
Defined.

Lemma C10_witness :
  GenericUpdate (Update tt (leaf a unreadable)) a (new_set ab)
  = Returns (NotOk 3 "unsupported statistics") (new_set ab)
      [Call_Init; Call_Update a].
Proof.
  eapply (proj2
            (C10_failed_first_touch (api := Toy.api)
               (Update tt (leaf a unreadable)) a (new_set ab) eq_refl)).
  - reflexivity.
  - reflexivity.
Defined.

End OnToy.

(** ** More on the reason aggregation *)

Lemma append_assoc (a b c : string) : (a +:+ b) +:+ c = a +:+ b +:+ c.
Proof.
  induction a as [|ch a IH]; [done |].
  change (String ch ((a +:+ b) +:+ c) = String ch (a +:+ b +:+ c)).
  by f_equal.
Qed.

Lemma append_nonempty (a b : string) : a ≠ "" → a +:+ b ≠ "".
Proof. by destruct a. Qed.

(** Joining from the left, as the fold does, is joining from the right, as
    [String.concat] does. *)
Lemma fold_join_prefix (texts : list string) (p y : string) :
  fold_left (λ r s, r +:+ " " +:+ s) texts (p +:+ y)
  = p +:+ fold_left (λ r s, r +:+ " " +:+ s) texts y.
Proof.
  revert y. induction texts as [|t texts IH]; intros y; [done |].
  cbn [fold_left]. by rewrite append_assoc, IH.
Qed.

Lemma concat_fold_join (x : string) (texts : list string) :
  String.concat " " (x :: texts)
  = fold_left (λ r s, r +:+ " " +:+ s) texts x.
Proof.
  revert x. induction texts as [|t texts IH]; intros x; [done |].
  change (String.concat " " (x :: t :: texts))
    with (x +:+ " " +:+ String.concat " " (t :: texts)).
  rewrite IH. cbn [fold_left].
  by rewrite <- (append_assoc x " " t), fold_join_prefix, append_assoc.
Qed.

Lemma unify_step_empty_running running next :
  long_description running = "" → unify_step running next = next.
Proof. intros H. unfold unify_step. by rewrite bool_decide_eq_true_2. Qed.

Lemma unify_step_empty_next running next :
  long_description running ≠ "" → long_description next = "" →
  unify_step running next = running.
Proof.
  intros Hr Hn. unfold unify_step.
  by rewrite bool_decide_eq_false_2, bool_decide_eq_true_2.
Qed.

Lemma unify_step_merge running next :
  long_description running ≠ "" → long_description next ≠ "" →
  unify_step running next
  = MkDescription UNKNOWN_TYPE kMultipleErrors
      (long_description running +:+ " " +:+ long_description next).
Proof.
  intros Hr Hn. unfold unify_step. by rewrite !bool_decide_eq_false_2.
Qed.

Lemma unify_fold_long_nonempty descriptions running :
  long_description running ≠ "" →
  long_description (fold_left unify_step descriptions running)
  = fold_left (λ r s, r +:+ " " +:+ s)
      (filter (λ s, s ≠ "") (long_description <$> descriptions))
      (long_description running).
Proof.
  revert running.
  induction descriptions as [|d rest IH]; intros running Hr; [done |].
  cbn [fold_left].
  rewrite fmap_cons, filter_cons.
  destruct (decide (long_description d ≠ "")) as [Hd | Hd].
  - rewrite unify_step_merge by done. rewrite IH; [done |].
    by apply append_nonempty.
  - rewrite unify_step_empty_next; [by apply IH | done |].
    by destruct (decide (long_description d = "")).
Qed.

Lemma unify_fold_long_empty descriptions running :
  long_description running = "" →
  long_description (fold_left unify_step descriptions running)
  = String.concat " "
      (filter (λ s, s ≠ "") (long_description <$> descriptions)).
Proof.
  revert running.
  induction descriptions as [|d rest IH]; intros running Hr; [done |].
  cbn [fold_left].
  rewrite unify_step_empty_running by done.
  rewrite fmap_cons, filter_cons.
  destruct (decide (long_description d ≠ "")) as [Hd | Hd].
  - by rewrite concat_fold_join, unify_fold_long_nonempty.
  - apply IH. by destruct (decide (long_description d = "")).
Qed.

Lemma unify_fold_kind_nonempty descriptions running :
  long_description running ≠ "" →
  match filter (λ d, long_description d ≠ "") descriptions with
  | [] => fold_left unify_step descriptions running = running
  | _ :: _ =>
      type (fold_left unify_step descriptions running) = UNKNOWN_TYPE
      ∧ short_description (fold_left unify_step descriptions running)
        = kMultipleErrors
  end.
Proof.
  revert running.
  induction descriptions as [|d rest IH]; intros running Hr; [done |].
  cbn [fold_left].
  rewrite filter_cons.
  destruct (decide (long_description d ≠ "")) as [Hd | Hd].
  - rewrite unify_step_merge by done.
    set (merged := MkDescription _ _ _).
    assert (long_description merged ≠ "") as Hm by by apply append_nonempty.
    specialize (IH merged Hm).
    destruct (filter _ rest); [by rewrite IH | done].
  - rewrite unify_step_empty_next; [by apply IH | done |].
    by destruct (decide (long_description d = "")).
Qed.

Lemma unify_fold_kind_empty descriptions running :
  long_description running = "" →
  match filter (λ d, long_description d ≠ "") descriptions with
  | [] =>
      fold_left unify_step descriptions running
      = default running (last descriptions)
  | [only] => fold_left unify_step descriptions running = only
  | _ :: _ :: _ =>
      type (fold_left unify_step descriptions running) = UNKNOWN_TYPE
      ∧ short_description (fold_left unify_step descriptions running)
        = kMultipleErrors
  end.
Proof.
  revert running.
  induction descriptions as [|d rest IH]; intros running Hr; [done |].
  cbn [fold_left].
  rewrite unify_step_empty_running by done. rewrite filter_cons.
  destruct (decide (long_description d ≠ "")) as [Hd | Hd].
  - pose proof (unify_fold_kind_nonempty rest d Hd) as Hrest.
    by destruct (filter _ rest).
  - assert (long_description d = "") as Hd'
      by by destruct (decide (long_description d = "")).
    specialize (IH d Hd').
    destruct (filter _ rest) as [|d1 [|d2 more]]; [| done | done].
    rewrite IH. rewrite last_cons. by destruct (last rest).
Qed.

(** X1. The filter returns a prefix of its input, is empty only on the
    empty list, and filtering twice is filtering once. *)
Theorem X1_filter_prefix_idempotent (descriptions : list Description) :
  FilterDescriptions (FilterDescriptions descriptions)
  = FilterDescriptions descriptions
  ∧ FilterDescriptions descriptions `prefix_of` descriptions
  ∧ (FilterDescriptions descriptions = [] ↔ descriptions = []).
Proof.
  split_and!; [| | apply FilterDescriptions_nil].
  - destruct descriptions as [|first rest]; [done |].
    destruct (AllSchemaNewColumn (first :: rest)) eqn:Hall.
    + apply AllSchemaNewColumn_Forall in Hall.
      rewrite (FilterDescriptions_collapse _ _ Hall).
      apply FilterDescriptions_collapse. constructor; [| constructor].
      by inversion Hall.
    + assert (FilterDescriptions (first :: rest) = first :: rest) as ->
        by (unfold FilterDescriptions; by rewrite Hall, andb_false_r).
      unfold FilterDescriptions. by rewrite Hall, andb_false_r.
  - unfold FilterDescriptions.
    destruct (_ && _); [| done].
    rewrite <- (take_drop 1 descriptions) at 2. by eexists.
Qed.

(** X2. The long text of the unified description is the long texts that
    are not empty, in order, separated by single spaces. *)
Theorem X2_unified_long_text (descriptions : list Description) :
  long_description (UnifyDescriptions descriptions)
  = String.concat " "
      (filter (λ s, s ≠ "") (long_description <$> descriptions)).
Proof. by apply unify_fold_long_empty. Qed.

(** X3. With no description whose long text is not empty, the unified
    description is the last description (the empty one for an empty list);
    with exactly one, it is that description, kind and short text included,
    wherever it stands; with two or more, its kind is UNKNOWN_TYPE and its
    short text "Multiple errors". *)
Theorem X3_unified_kind (descriptions : list Description) :
  match filter (λ d, long_description d ≠ "") descriptions with
  | [] =>
      UnifyDescriptions descriptions
      = default empty_Description (last descriptions)
  | [only] => UnifyDescriptions descriptions = only
  | _ :: _ :: _ =>
      type (UnifyDescriptions descriptions) = UNKNOWN_TYPE
      ∧ short_description (UnifyDescriptions descriptions) = "Multiple errors"
  end.
Proof. by apply unify_fold_kind_empty. Qed.

(** ** Entries only grow *)

Section Growth.
Context {SchemaProto Schema Updater Config Stats Reasons : Type}.
Context {api : SchemaApi SchemaProto Schema Updater Config Stats}.
Implicit Types (self : SchemaAnomalies SchemaProto Schema).
Implicit Types (anomaly entry : SchemaAnomaly Schema) (path : Path).
Implicit Types (view : FeatureStatsView Stats) (needed : option (gset Path)).

Lemma extends_refl anomaly : extends anomaly anomaly.
Proof. by split_and!. Qed.

Lemma extends_trans anomaly1 anomaly2 anomaly3 :
  extends anomaly1 anomaly2 → extends anomaly2 anomaly3 →
  extends anomaly1 anomaly3.
Proof.
  intros (Hp1 & Hd1 & Hs1) (Hp2 & Hd2 & Hs2). split_and!.
  - congruence.
  - by etrans.
  - lia.
Qed.

Lemma run_operation_extends (op : Operation) anomaly status anomaly' calls :
  run_operation op anomaly = Returns status anomaly' calls →
  extends anomaly anomaly' ∧ is_Some (schema_ anomaly').
Proof.
  intros Hrun. destruct (schema_ anomaly) as [schema|] eqn:Hs.
  - destruct (run_operation_effect op anomaly (mk_is_Some _ _ Hs))
      as (status1 & anomaly1 & calls1 & added & Hrun1 & Hs1 & Hp & Hd & Hv).
    rewrite Hrun in Hrun1. injection Hrun1 as -> -> ->.
    split; [| done]. split_and!; [done | by exists added |].
    rewrite Hv. apply fold_MaxSeverity_ge.
  - by rewrite (run_operation_null op anomaly Hs) in Hrun.
Qed.

Lemma grows_refl self : grows self self.
Proof.
  split; [done |]. intros path anomaly Hlook. exists anomaly.
  split; [done | apply extends_refl].
Qed.

Lemma grows_trans self1 self2 self3 :
  grows self1 self2 → grows self2 self3 → grows self1 self3.
Proof.
  intros [Hb1 H1] [Hb2 H2]. split; [congruence |].
  intros path anomaly Hlook.
  destruct (H1 _ _ Hlook) as (anomaly2 & Hlook2 & Hext2).
  destruct (H2 _ _ Hlook2) as (anomaly3 & Hlook3 & Hext3).
  exists anomaly3. split; [done | by eapply extends_trans].
Qed.

(** Writing an entry grows the set when the path had no entry, or had one
    that the new entry extends. *)
Lemma grows_insert self path entry :
  (∀ old, anomalies_ self !! path = Some old → extends old entry) →
  grows self
    (MkSchemaAnomalies (serialized_baseline_ self)
       (<[path := entry]> (anomalies_ self))).
Proof.
  intros Hold. split; [done |]. intros path' anomaly Hlook; simpl.
  destruct (decide (path = path')) as [<- | Hne].
  - rewrite lookup_insert_eq. exists entry. split; [done | by apply Hold].
  - rewrite lookup_insert_ne by done. exists anomaly.
    split; [done | apply extends_refl].
Qed.

Lemma GenericUpdate_grows update path self status self' calls :
  (∀ anomaly st anomaly' cs,
     update anomaly = Returns st anomaly' cs → extends anomaly anomaly') →
  GenericUpdate update path self = Returns status self' calls →
  grows self self'.
Proof.
  intros Hupdate.
  destruct (anomalies_ self !! path) as [entry|] eqn:Hlook.
  - rewrite (GenericUpdate_present _ _ _ _ Hlook).
    destruct (update entry) as [status1 entry' calls1| |] eqn:Hrun;
      [| done | done].
    intros [= <- <- <-]. apply grows_insert.
    intros old. rewrite Hlook. intros [= <-]. by eapply Hupdate.
  - rewrite (GenericUpdate_absent _ _ _ Hlook).
    destruct (Schema_Init (serialized_baseline_ self))
      as [fresh [|code message]].
    + destruct (update _) as [[|code message] local calls'| |]; try done.
      * intros [= <- <- <-]. destruct (is_problem local).
        -- apply grows_insert. intros old. by rewrite Hlook.
        -- apply grows_refl.
      * intros [= <- <- <-]. apply grows_refl.
    + intros [= <- <- <-]. apply grows_refl.
Qed.

Lemma nodes_of_children path (stats : Stats)
    (children : list (FeatureStatsView Stats)) child :
  child ∈ children →
  nodes_of child ⊆ nodes_of (MkFeatureStatsView path stats children).
Proof.
  intros Hin node Hnode. simpl. apply list_elem_of_further.
  apply list_elem_of_In, in_concat. exists (nodes_of child).
  split; [apply in_map; by apply list_elem_of_In | by apply list_elem_of_In].
Qed.

(** A property of the anomaly set that the in-place update and the write
    of the creation branch keep, at the nodes of a tree, is kept by the walk
    of that tree, whatever status the walk returns. *)
Lemma walk_preserves (Inv : SchemaAnomalies SchemaProto Schema → Prop)
    (touched : FeatureStatsView Stats → Prop) needed updater :
  (∀ view self status self' calls,
     touched view → Inv self →
     GenericUpdate (Update updater view) (GetPath view) self
     = Returns status self' calls →
     Inv self') →
  (∀ view self baseline status entry calls,
     touched view → Inv self →
     Schema_Init (serialized_baseline_ self) = (baseline, OK) →
     CreateNewField updater needed view
       (default (MkSchemaAnomaly (Some baseline) (GetPath view) [] UNKNOWN)
          (anomalies_ self !! GetPath view))
     = Returns status entry calls →
     Inv (MkSchemaAnomalies (serialized_baseline_ self)
            (<[GetPath view := entry]> (anomalies_ self)))) →
  ∀ view,
    Forall touched (nodes_of view) →
    ∀ self status self' calls,
      Inv self →
      FindChangesRecursively view needed updater self
      = Returns status self' calls →
      Inv self'.
Proof.
  intros Hupdate Hcreate.
  induction view as [path stats children IH] using FeatureStatsView_nested_ind.
  intros Htouched self status self' calls Hinv.
  set (view := MkFeatureStatsView path stats children) in *.
  assert (touched view) as Hview.
  { rewrite Forall_forall in Htouched. apply Htouched. simpl.
    apply list_elem_of_here. }
  destruct (Schema_Init (serialized_baseline_ self))
    as [baseline [|code message]] eqn:Hinit.
  2: { rewrite (walk_seeding_fails _ _ _ _ _ _ _ Hinit).
       by intros [= <- <- <-]. }
  destruct (Schema_FeatureExists path baseline) eqn:Hex.
  - destruct (Schema_FeatureIsDeprecated path baseline) eqn:Hdep.
    + rewrite (walk_deprecated view _ _ _ baseline) by done.
      by intros [= <- <- <-].
    + rewrite (walk_validated view _ _ _ baseline) by done.
      destruct (GenericUpdate _ (GetPath view) self)
        as [status1 self1 calls1| |] eqn:Hrun; [| done | done].
      assert (Inv self1) as Hinv1 by by eapply Hupdate.
      destruct status1 as [|code message]; [| by intros [= <- <- <-]].
      destruct (reports_deprecated (GetPath view) self1);
        [by intros [= <- <- <-] |].
      destruct (for_each _ (GetChildren view) self1)
        as [status2 self2 calls2| |] eqn:Hloop; [| done | done].
      intros [= <- <- <-].
      eapply (for_each_preserves Inv); [| exact Hinv1 | exact Hloop].
      simpl. apply Forall_forall. intros child Hchild s st s' cs Hs Hwalk.
      rewrite Forall_forall in IH. eapply (IH child Hchild); [| done | done].
      apply Forall_forall. intros node Hnode.
      rewrite Forall_forall in Htouched. apply Htouched.
      by eapply nodes_of_children.
  - destruct (ShouldCreateFeature needed view) eqn:Hshould.
    + rewrite (walk_created view _ _ _ baseline) by done.
      destruct (CreateNewField _ _ _ _) as [status1 entry calls1| |] eqn:Hnew;
        [| done | done].
      intros [= <- <- <-].
      by apply (Hcreate view self baseline status1 entry calls1).
    + rewrite (walk_ignored view _ _ _ baseline) by done.
      by intros [= <- <- <-].
Qed.

(** The same for the two sweeps: what each step keeps, the sweep keeps. *)
Lemma FindChanges_preserves (Inv : SchemaAnomalies SchemaProto Schema → Prop)
    (statistics : DatasetStatsView Stats)
    (required : option (gmap Path Reasons)) config :
  (∀ view self status self' calls,
     view ∈ GetRootFeatures statistics → Inv self →
     FindChangesRecursively view (dom <$> required) (Updater_new config) self
     = Returns status self' calls →
     Inv self') →
  (∀ self1 baseline path self status self' calls,
     Inv self1 →
     Schema_Init (serialized_baseline_ self1) = (baseline, OK) →
     path ∈ Schema_GetMissingPaths statistics baseline → Inv self →
     GenericUpdate (run_operation Do_ObserveMissing) path self
     = Returns status self' calls →
     Inv self') →
  ∀ self status self' calls,
    Inv self →
    FindChanges statistics required config self = Returns status self' calls →
    Inv self'.
Proof.
  intros Hwalk Hmissing self status self' calls Hinv.
  unfold FindChanges, bind.
  destruct (for_each _ (GetRootFeatures statistics) self)
    as [status1 self1 calls1| |] eqn:Hroots; [| done | done].
  assert (Inv self1) as Hinv1.
  { eapply (for_each_preserves Inv); [| exact Hinv | exact Hroots].
    apply Forall_forall. intros view Hview s st s' cs Hs Hrun.
    by eapply Hwalk. }
  destruct status1 as [|code message]; [| by intros [= <- <- <-]].
  unfold InitSchema_baseline, bind, gets, call, ret; simpl.
  destruct (Schema_Init (serialized_baseline_ self1))
    as [baseline [|code message]] eqn:Hinit; simpl;
    [| by intros [= <- <- <-]].
  destruct (for_each _ (Schema_GetMissingPaths statistics baseline) self1)
    as [status2 self2 calls2| |] eqn:Hsweep; [| done | done].
  assert (Inv self2) as Hinv2.
  { eapply (for_each_preserves Inv); [| exact Hinv1 | exact Hsweep].
    apply Forall_forall. intros path Hpath s st s' cs Hs Hrun.
    by eapply (Hmissing self1 baseline path). }
  destruct status2; simpl; by intros [= <- <- <-].
Qed.

Lemma FindSkew_preserves (Inv : SchemaAnomalies SchemaProto Schema → Prop)
    (statistics : DatasetStatsView Stats) :
  (∀ view self status self' calls,
     view ∈ features statistics → Inv self →
     GenericUpdate (run_operation (Do_UpdateSkewComparator view))
       (GetPath view) self
     = Returns status self' calls →
     Inv self') →
  ∀ self status self' calls,
    Inv self →
    FindSkew statistics self = Returns status self' calls →
    Inv self'.
Proof.
  intros Hstep self status self' calls Hinv Hrun. unfold FindSkew in Hrun.
  eapply (for_each_preserves Inv); [| exact Hinv | exact Hrun].
  apply Forall_forall. intros view Hview s st s' cs Hs.
  unfold bind, TF_CHECK_OK.
  destruct (GenericUpdate _ _ s) as [[|code message] s1 calls1| |] eqn:Hupdate;
    try done.
  simpl. intros [= <- <- <-]. by eapply Hstep.
Qed.

Lemma walk_grows view needed updater self status self' calls :
  FindChangesRecursively view needed updater self
  = Returns status self' calls →
  grows self self'.
Proof.
  apply (walk_preserves (grows self) (λ _, True) needed updater).
  - intros v s st s' cs _ Hs Hrun. eapply grows_trans; [exact Hs |].
    eapply GenericUpdate_grows; [| exact Hrun].
    intros anomaly st' anomaly' cs' Hop.
    by apply (run_operation_extends (Do_Update updater v)) in Hop as [? _].
  - intros v s baseline st entry cs _ Hs Hinit Hnew.
    eapply grows_trans; [exact Hs |]. apply grows_insert.
    intros old Hold. rewrite Hold in Hnew. simpl in Hnew.
    by apply (run_operation_extends (Do_CreateNewField updater needed v))
      in Hnew as [? _].
  - by apply Forall_forall.
  - apply grows_refl.
Qed.

Lemma sweep_step_grows (op : Operation) path self status self' calls :
  GenericUpdate (run_operation op) path self = Returns status self' calls →
  grows self self'.
Proof.
  apply GenericUpdate_grows. intros anomaly st anomaly' cs Hop.
  by apply run_operation_extends in Hop as [? _].
Qed.

Lemma FindChanges_grows (statistics : DatasetStatsView Stats)
    (required : option (gmap Path Reasons)) config self status self' calls :
  FindChanges statistics required config self = Returns status self' calls →
  grows self self'.
Proof.
  apply (FindChanges_preserves (grows self)); [| | apply grows_refl].
  - intros view s st s' cs _ Hs Hrun.
    eapply grows_trans; [exact Hs | by eapply walk_grows].
  - intros s1 baseline path s st s' cs _ _ _ Hs Hrun.
    eapply grows_trans; [exact Hs | by eapply sweep_step_grows].
Qed.

Lemma FindSkew_grows (statistics : DatasetStatsView Stats) self status self'
    calls :
  FindSkew statistics self = Returns status self' calls → grows self self'.
Proof.
  apply (FindSkew_preserves (grows self)); [| apply grows_refl].
  intros view s st s' cs _ Hs Hrun.
  eapply grows_trans; [exact Hs | by eapply sweep_step_grows].
Qed.

(** X4. On an accumulator whose schema is set, the recursive creation
    returns the status of the creation algorithm. When the algorithm fails,
    the path, the description list and the severity are what they were;
    when it succeeds, all the descriptions it returned are appended, in
    order, and its severity is merged. *)
Theorem X4_create_new_field updater needed view anomaly schema :
  schema_ anomaly = Some schema →
  let out := (Schema_UpdateRecursively updater view needed schema).2 in
  ∃ anomaly' calls,
    CreateNewField updater needed view anomaly
    = Returns out.1.1 anomaly' calls
    ∧ path_ anomaly' = path_ anomaly
    ∧ (out.1.1 ≠ OK →
       descriptions_ anomaly' = descriptions_ anomaly
       ∧ severity_ anomaly' = severity_ anomaly)
    ∧ (out.1.1 = OK →
       descriptions_ anomaly' = descriptions_ anomaly ++ out.1.2
       ∧ severity_ anomaly' = MaxSeverity (severity_ anomaly) out.2).
Proof.
  intros Hs. rewrite (CreateNewField_returns _ _ _ _ _ Hs).
  destruct (Schema_UpdateRecursively updater view needed schema)
    as [schema' [[[|code message] found] severity]]; simpl;
    eexists _, _; split_and!; done.
Qed.

(** X5. With any of the four operations as mutation, [GenericUpdate]
    never removes or replaces an entry: whatever status it returns, the
    baseline is the same, every entry that was in the map is still there
    with the same path, its descriptions followed by new ones at most, and a
    severity that is not lower; and no entry of another path is touched. *)
Theorem X5_generic_update_grows (op : Operation) path self status self' calls :
  GenericUpdate (run_operation op) path self = Returns status self' calls →
  grows self self'
  ∧ ∀ other, other ≠ path →
      anomalies_ self' !! other = anomalies_ self !! other.
Proof.
  intros Hrun. split; [by eapply sweep_step_grows |].
  intros other Hne. by eapply GenericUpdate_other.
Qed.

(** X6. The tree walk, FindChanges and FindSkew never remove or replace an
    entry either: whatever status they return, the baseline is the same and
    every entry that was in the map is still there, extended at most. *)
Theorem X6_sweeps_grow :
  (∀ view needed updater self status self' calls,
     FindChangesRecursively view needed updater self
     = Returns status self' calls →
     grows self self')
  ∧ (∀ (statistics : DatasetStatsView Stats)
       (required : option (gmap Path Reasons)) config self status self' calls,
       FindChanges statistics required config self
       = Returns status self' calls →
       grows self self')
  ∧ (∀ (statistics : DatasetStatsView Stats) self status self' calls,
       FindSkew statistics self = Returns status self' calls →
       grows self self').
Proof.
  split_and!.
  - intros *. apply walk_grows.
  - intros *. apply FindChanges_grows.
  - intros *. apply FindSkew_grows.
Qed.

End Growth.

(** ** What the sweeps leave alone, and what they never run into *)

Section Safety.
Context {SchemaProto Schema Updater Config Stats Reasons : Type}.
Context {api : SchemaApi SchemaProto Schema Updater Config Stats}.
Implicit Types (self : SchemaAnomalies SchemaProto Schema).
Implicit Types (anomaly entry : SchemaAnomaly Schema) (path : Path).
Implicit Types (view : FeatureStatsView Stats) (needed : option (gset Path)).

Lemma walk_frame view needed updater self status self' calls other :
  other ∉ paths_of view →
  FindChangesRecursively view needed updater self
  = Returns status self' calls →
  anomalies_ self' !! other = anomalies_ self !! other.
Proof.
  intros Hother.
  apply (walk_preserves
           (λ s, anomalies_ s !! other = anomalies_ self !! other)
           (λ v, GetPath v ≠ other) needed updater); [| | | done].
  - intros v s st s' cs Hv Hs Hrun. rewrite <- Hs.
    by eapply GenericUpdate_other.
  - intros v s baseline st entry cs Hv Hs _ _. simpl.
    by rewrite lookup_insert_ne.
  - apply Forall_forall. intros node Hnode Heq. apply Hother.
    unfold paths_of. rewrite <- Heq. by apply list_elem_of_fmap_2.
Qed.

(** X7. The tree walk touches no entry whose path is not the path of a
    node of the tree; FindSkew touches no entry whose path is not the path
    of a feature it is given; FindChanges touches no entry whose path is
    neither in a root's tree nor among the missing paths. *)
Theorem X7_sweeps_frame other :
  (∀ view needed updater self status self' calls,
     other ∉ paths_of view →
     FindChangesRecursively view needed updater self
     = Returns status self' calls →
     anomalies_ self' !! other = anomalies_ self !! other)
  ∧ (∀ (statistics : DatasetStatsView Stats) self status self' calls,
       other ∉ GetPath <$> features statistics →
       FindSkew statistics self = Returns status self' calls →
       anomalies_ self' !! other = anomalies_ self !! other)
  ∧ (∀ (statistics : DatasetStatsView Stats)
       (required : option (gmap Path Reasons)) config self baseline
       status self' calls,
       Schema_Init (serialized_baseline_ self) = (baseline, OK) →
       (∀ root, root ∈ GetRootFeatures statistics → other ∉ paths_of root) →
       other ∉ Schema_GetMissingPaths statistics baseline →
       FindChanges statistics required config self
       = Returns status self' calls →
       anomalies_ self' !! other = anomalies_ self !! other).
Proof.
  split_and!.
  - intros *. apply walk_frame.
  - intros statistics self status self' calls Hother.
    apply (FindSkew_preserves
             (λ s, anomalies_ s !! other = anomalies_ self !! other));
      [| done].
    intros view s st s' cs Hview Hs Hrun. rewrite <- Hs.
    eapply GenericUpdate_other; [| exact Hrun].
    intros ->. apply Hother. by apply list_elem_of_fmap_2.
  - intros statistics required config self baseline status self' calls
      Hinit Hroots Hmissing Hrun.
    enough (grows self self'
            ∧ anomalies_ self' !! other = anomalies_ self !! other)
      as [_ ?] by done.
    revert Hrun.
    apply (FindChanges_preserves
             (λ s, grows self s
                   ∧ anomalies_ s !! other = anomalies_ self !! other));
      [| | split; [apply grows_refl | done]].
    + intros view s st s' cs Hview [Hg Hs] Hwalk. split.
      * eapply grows_trans; [exact Hg | by eapply walk_grows].
      * rewrite <- Hs. eapply walk_frame; [| exact Hwalk]. by apply Hroots.
    + intros s1 baseline1 path s st s' cs [Hg1 _] Hinit1 Hpath [Hg Hs] Hstep.
      split.
      * eapply grows_trans; [exact Hg | by eapply sweep_step_grows].
      * rewrite <- Hs. eapply GenericUpdate_other; [| exact Hstep].
        intros ->. apply Hmissing.
        destruct Hg1 as [Hb1 _]. rewrite Hb1, Hinit in Hinit1.
        by injection Hinit1 as <-.
Qed.

Lemma well_keyed_insert self path entry :
  well_keyed self → path_ entry = path → is_Some (schema_ entry) →
  well_keyed
    (MkSchemaAnomalies (serialized_baseline_ self)
       (<[path := entry]> (anomalies_ self))).
Proof.
  intros Hwk Hpath Hschema path' anomaly; simpl.
  destruct (decide (path = path')) as [<- | Hne].
  - rewrite lookup_insert_eq. by intros [= <-].
  - rewrite lookup_insert_ne by done. apply Hwk.
Qed.

(** An operation on an accumulator whose schema is set returns, keeps the
    path and leaves a schema set. *)
Lemma run_operation_returns (op : Operation) anomaly :
  is_Some (schema_ anomaly) →
  ∃ status anomaly' calls,
    run_operation op anomaly = Returns status anomaly' calls
    ∧ path_ anomaly' = path_ anomaly
    ∧ is_Some (schema_ anomaly').
Proof.
  intros Hs.
  destruct (run_operation_effect op anomaly Hs)
    as (status & anomaly' & calls & added & Hrun & Hs' & Hp & _).
  by exists status, anomaly', calls.
Qed.

Lemma GenericUpdate_safe (op : Operation) path self :
  well_keyed self →
  outcome_in False well_keyed (GenericUpdate (run_operation op) path self).
Proof.
  intros Hwk.
  destruct (anomalies_ self !! path) as [entry|] eqn:Hlook.
  - rewrite (GenericUpdate_present _ _ _ _ Hlook).
    destruct (Hwk _ _ Hlook) as [Hpath Hschema].
    destruct (run_operation_returns op entry Hschema)
      as (status & entry' & calls & -> & Hp & Hs').
    simpl. apply well_keyed_insert; [done | congruence | done].
  - rewrite (GenericUpdate_absent _ _ _ Hlook).
    destruct (Schema_Init (serialized_baseline_ self))
      as [fresh [|code message]]; [| done].
    destruct (run_operation_returns op
                (MkSchemaAnomaly (Some fresh) path [] UNKNOWN))
      as (status & local & calls & -> & Hp & Hs'); [by eexists |].
    destruct status as [|code message]; [| done]. simpl.
    destruct (is_problem local); [| done].
    by apply well_keyed_insert.
Qed.

Lemma for_each_outcome {S A} (check_ok : Prop) (Inv : S → Prop)
    (f : A → M S Status) range :
  Forall (λ x, ∀ s, Inv s → outcome_in check_ok Inv (f x s)) range →
  ∀ s, Inv s → outcome_in check_ok Inv (for_each f range s).
Proof.
  induction 1 as [|x rest Hx _ IH]; intros s Hinv; simpl; [done |].
  unfold bind. specialize (Hx s Hinv).
  destruct (f x s) as [[|code message] s1 calls1| |]; simpl in *; try done.
  specialize (IH s1 Hx). by destruct (for_each f rest s1).
Qed.

Lemma walk_safe view needed updater :
  ∀ self, well_keyed self →
    outcome_in False well_keyed
      (FindChangesRecursively view needed updater self).
Proof.
  induction view as [path stats children IH] using FeatureStatsView_nested_ind.
  intros self Hwk.
  set (view := MkFeatureStatsView path stats children) in *.
  destruct (Schema_Init (serialized_baseline_ self))
    as [baseline [|code message]] eqn:Hinit.
  2: { by rewrite (walk_seeding_fails _ _ _ _ _ _ _ Hinit). }
  destruct (Schema_FeatureExists path baseline) eqn:Hex.
  - destruct (Schema_FeatureIsDeprecated path baseline) eqn:Hdep.
    + by rewrite (walk_deprecated view _ _ _ baseline).
    + rewrite (walk_validated view _ _ _ baseline) by done.
      pose proof (GenericUpdate_safe (Do_Update updater view) (GetPath view)
                    self Hwk) as Hsafe.
      change (run_operation (Do_Update updater view))
        with (Update updater view) in Hsafe.
      destruct (GenericUpdate _ (GetPath view) self)
        as [[|code message] self1 calls1| |]; try done.
      simpl in Hsafe.
      destruct (reports_deprecated (GetPath view) self1); [done |].
      pose proof (for_each_outcome False well_keyed
                    (λ child, FindChangesRecursively child needed updater)
                    children IH self1 Hsafe) as Hloop.
      change (GetChildren view) with children.
      by destruct (for_each _ children self1).
  - destruct (ShouldCreateFeature needed view) eqn:Hshould.
    + rewrite (walk_created view _ _ _ baseline) by done.
      set (target := default _ _).
      assert (path_ target = path ∧ is_Some (schema_ target)) as [Hp Hs].
      { subst target. simpl.
        destruct (anomalies_ self !! path) as [old|] eqn:Hlook; simpl.
        - by apply Hwk.
        - split; [done | by eexists]. }
      destruct (run_operation_returns
                  (Do_CreateNewField updater needed view) target Hs)
        as (status & entry & calls & Hrun & Hp' & Hs').
      simpl in Hrun. rewrite Hrun. simpl.
      apply well_keyed_insert; [done | congruence | done].
    + by rewrite (walk_ignored view _ _ _ baseline).
Qed.

Lemma FindChanges_safe (statistics : DatasetStatsView Stats)
    (required : option (gmap Path Reasons)) config self :
  well_keyed self →
  outcome_in False well_keyed (FindChanges statistics required config self).
Proof.
  intros Hwk. unfold FindChanges, bind.
  pose proof (for_each_outcome False well_keyed
                (λ view, FindChangesRecursively view (dom <$> required)
                           (Updater_new config))
                (GetRootFeatures statistics)) as Hroots.
  specialize (Hroots ltac:(apply Forall_forall; intros; by apply walk_safe)
                self Hwk).
  destruct (for_each _ (GetRootFeatures statistics) self)
    as [[|code message] self1 calls1| |]; simpl in *; try done.
  unfold InitSchema_baseline, bind, gets, call, ret; simpl.
  destruct (Schema_Init (serialized_baseline_ self1))
    as [baseline [|code message]]; simpl; [| done].
  pose proof (for_each_outcome False well_keyed
                (GenericUpdate (run_operation Do_ObserveMissing))
                (Schema_GetMissingPaths statistics baseline)) as Hsweep.
  specialize (Hsweep ltac:(apply Forall_forall; intros;
                             by apply GenericUpdate_safe) self1 Hroots).
  simpl in Hsweep.
  by destruct (for_each _ (Schema_GetMissingPaths statistics baseline) self1)
    as [[|code message] self2 calls2| |].
Qed.

Lemma FindSkew_safe (statistics : DatasetStatsView Stats) self :
  well_keyed self → outcome_in True well_keyed (FindSkew statistics self).
Proof.
  intros Hwk. unfold FindSkew.
  apply (for_each_outcome True well_keyed); [| done].
  apply Forall_forall. intros view _ s Hs. unfold bind, TF_CHECK_OK.
  pose proof (GenericUpdate_safe (Do_UpdateSkewComparator view)
                (GetPath view) s Hs) as Hsafe.
  simpl in Hsafe.
  by destruct (GenericUpdate _ _ s) as [[|code message] s1 calls1| |].
Qed.

Lemma reachable_well_keyed self :
  reachable (Reasons := Reasons) self → well_keyed self.
Proof.
  induction 1 as [proto|s statistics required config status s' calls _ IH Hrun
                 |s statistics status s' calls _ IH Hrun].
  - intros path anomaly; simpl. by rewrite lookup_empty.
  - pose proof (FindChanges_safe statistics required config s IH) as Hsafe.
    by rewrite Hrun in Hsafe.
  - pose proof (FindSkew_safe statistics s IH) as Hsafe.
    by rewrite Hrun in Hsafe.
Qed.

Lemma GetSchemaDiff_is_Some self :
  well_keyed self → is_Some (GetSchemaDiff self).
Proof.
  intros Hwk. unfold GetSchemaDiff.
  set (step := λ (acc : option (gmap string AnomalyInfo))
                 (pair : Path * SchemaAnomaly Schema), _).
  assert (∀ pairs acc,
            Forall (λ pair : Path * SchemaAnomaly Schema,
                      is_Some (schema_ pair.2)) pairs →
            is_Some (foldl step (Some acc) pairs)) as Hfold.
  { induction pairs as [|pair pairs IH]; intros acc Hall; simpl; [done |].
    inversion Hall as [|? ? [schema Hs] Hrest]; subst.
    unfold GetAnomalyInfo. rewrite Hs. simpl. by apply IH. }
  destruct (Hfold (map_to_list (anomalies_ self)) ∅) as [result Hresult].
  - apply Forall_forall. intros [path anomaly] Hin.
    apply elem_of_map_to_list in Hin. by apply Hwk in Hin as [_ ?].
  - rewrite Hresult. by eexists.
Qed.

(** X8. In every state that calls of FindChanges and FindSkew lead to,
    whatever they returned, every entry of the map carries the path it is
    stored under and a schema. Hence from such a state FindChanges always
    returns a status (it neither dereferences a null schema nor ends the
    process), FindSkew never dereferences a null schema, and the report is
    always rendered. *)
Theorem X8_no_null_schema self :
  reachable (Reasons := Reasons) self →
  well_keyed self
  ∧ (∀ (statistics : DatasetStatsView Stats)
       (required : option (gmap Path Reasons)) config,
       ∃ status self' calls,
         FindChanges statistics required config self
         = Returns status self' calls)
  ∧ (∀ statistics : DatasetStatsView Stats,
       FindSkew statistics self ≠ NullSchema)
  ∧ is_Some (GetSchemaDiff self).
Proof.
  intros Hreach. pose proof (reachable_well_keyed self Hreach) as Hwk.
  split_and!; [done | | | by apply GetSchemaDiff_is_Some].
  - intros statistics required config.
    pose proof (FindChanges_safe statistics required config self Hwk) as Hsafe.
    destruct (FindChanges statistics required config self)
      as [status self' calls| |]; [| done | done].
    by exists status, self', calls.
  - intros statistics Hnull.
    pose proof (FindSkew_safe statistics self Hwk) as Hsafe.
    by rewrite Hnull in Hsafe.
Qed.

End Safety.

(** ** The report, the missing sweep and the order of the walk *)

Section Sweeps.
Context {SchemaProto Schema Updater Config Stats Reasons : Type}.
Context {api : SchemaApi SchemaProto Schema Updater Config Stats}.
Implicit Types (self : SchemaAnomalies SchemaProto Schema).
Implicit Types (anomaly entry : SchemaAnomaly Schema) (path : Path).
Implicit Types (view : FeatureStatsView Stats) (needed : option (gset Path)).

(** The writes of [GetSchemaDiff], over any list of entries: a key that no
    entry serialises to keeps what it had. *)
Lemma render_fold_other proto (pairs : list (Path * SchemaAnomaly Schema))
    (acc result : gmap string AnomalyInfo) key :
  foldl
    (λ acc pair,
       result ← acc;
       info ← GetAnomalyInfo proto pair.2;
       Some (<[Path_Serialize pair.1 := info]> result))
    (Some acc) pairs
  = Some result →
  Forall (λ pair, Path_Serialize pair.1 ≠ key) pairs →
  result !! key = acc !! key.
Proof.
  revert acc. induction pairs as [|pair pairs IH]; intros acc; simpl.
  - by intros [= <-].
  - intros Hfold Hall. inversion Hall as [|? ? Hkey Hrest]; subst.
    destruct (GetAnomalyInfo proto pair.2) as [info|]; simpl in Hfold.
    + rewrite (IH _ Hfold Hrest). by rewrite lookup_insert_ne.
    + exfalso. clear -Hfold.
      induction pairs as [|p ps IHps]; simpl in Hfold; [done | by apply IHps].
Qed.

Lemma render_fold_lookup proto (pairs : list (Path * SchemaAnomaly Schema))
    (acc result : gmap string AnomalyInfo) :
  foldl
    (λ acc pair,
       result ← acc;
       info ← GetAnomalyInfo proto pair.2;
       Some (<[Path_Serialize pair.1 := info]> result))
    (Some acc) pairs
  = Some result →
  NoDup pairs.*1 →
  (∀ p q, p ∈ pairs.*1 → q ∈ pairs.*1 →
          Path_Serialize p = Path_Serialize q → p = q) →
  (∀ pair, pair ∈ pairs →
     result !! Path_Serialize pair.1 = GetAnomalyInfo proto pair.2)
  ∧ (∀ key info, result !! key = Some info →
       acc !! key = Some info
       ∨ ∃ pair, pair ∈ pairs ∧ key = Path_Serialize pair.1
                 ∧ GetAnomalyInfo proto pair.2 = Some info).
Proof.
  revert acc. induction pairs as [|pair pairs IH]; intros acc; simpl.
  - intros [= <-] _ _. split; [by intros ? ?%elem_of_nil | by left].
  - intros Hfold Hnodup Hinj.
    apply NoDup_cons in Hnodup as [Hfresh Hnodup].
    destruct (GetAnomalyInfo proto pair.2) as [info|] eqn:Hinfo;
      simpl in Hfold.
    2: { exfalso. clear -Hfold.
         induction pairs as [|p ps IHps]; simpl in Hfold;
           [done | by apply IHps]. }
    destruct (IH _ Hfold Hnodup) as [Hlook Hkeys].
    { intros p q Hp Hq. apply Hinj; by apply list_elem_of_further. }
    split.
    + intros pair' [-> | Hin]%elem_of_cons; [| by apply Hlook].
      rewrite (render_fold_other _ _ _ _ _ Hfold).
      * by rewrite lookup_insert_eq.
      * apply Forall_forall. intros other Hother Heq. apply Hfresh.
        assert (other.1 = pair.1) as <-.
        { apply Hinj; [| apply list_elem_of_here | done].
          apply list_elem_of_further. by apply list_elem_of_fmap_2. }
        by apply list_elem_of_fmap_2.
    + intros key info' Hkey.
      destruct (Hkeys _ _ Hkey) as [Hacc | (pair' & Hin & -> & Hinfo')].
      * destruct (decide (Path_Serialize pair.1 = key)) as [<- | Hne].
        -- rewrite lookup_insert_eq in Hacc. injection Hacc as ->.
           right. exists pair. split; [apply list_elem_of_here | done].
        -- rewrite lookup_insert_ne in Hacc by done. by left.
      * right. exists pair'. split; [by apply list_elem_of_further | done].
Qed.

(** X9. When every entry of the map has its schema set and no two paths
    of the map serialise to the same key, the report echoes the baseline,
    is tagged SERIALIZED_PATH, and has exactly the entries of the map: under
    the serialisation of each path the rendering of its accumulator, whose
    path and severity are the accumulator's and whose reasons are the
    filtered descriptions; and nothing under any other key. *)
Theorem X9_report_entries self :
  (∀ path anomaly,
     anomalies_ self !! path = Some anomaly → is_Some (schema_ anomaly)) →
  (∀ p q, is_Some (anomalies_ self !! p) → is_Some (anomalies_ self !! q) →
          Path_Serialize p = Path_Serialize q → p = q) →
  ∃ report,
    GetSchemaDiff self = Some report
    ∧ baseline report = serialized_baseline_ self
    ∧ anomaly_name_format report = SERIALIZED_PATH
    ∧ (∀ path anomaly,
         anomalies_ self !! path = Some anomaly →
         ∃ info,
           anomaly_info report !! Path_Serialize path = Some info
           ∧ info_path info = path_ anomaly
           ∧ info_severity info = severity_ anomaly
           ∧ info_reason info = FilterDescriptions (descriptions_ anomaly))
    ∧ (∀ key info,
         anomaly_info report !! key = Some info →
         ∃ path, key = Path_Serialize path
                 ∧ is_Some (anomalies_ self !! path)).
Proof.
  intros Hschemas Hinj.
  assert (∀ pairs (acc : gmap string AnomalyInfo),
            Forall (λ pair : Path * SchemaAnomaly Schema,
                      is_Some (schema_ pair.2)) pairs →
            is_Some
              (foldl
                 (λ acc pair,
                    result ← acc;
                    info ← GetAnomalyInfo (serialized_baseline_ self) pair.2;
                    Some (<[Path_Serialize pair.1 := info]> result))
                 (Some acc) pairs)) as Hsome.
  { induction pairs as [|pair pairs IH]; intros acc Hall; simpl; [done |].
    inversion Hall as [|? ? [schema Hs] Hrest]; subst.
    unfold GetAnomalyInfo. rewrite Hs. simpl. by apply IH. }
  destruct (Hsome (map_to_list (anomalies_ self)) ∅) as [result Hresult].
  { apply Forall_forall. intros [path anomaly] Hin.
    apply elem_of_map_to_list in Hin. by eapply Hschemas. }
  destruct (render_fold_lookup _ _ _ _ Hresult) as [Hlook Hkeys].
  { apply NoDup_fst_map_to_list. }
  { intros p q [[p' ap] [-> Hp]]%list_elem_of_fmap
             [[q' aq] [-> Hq]]%list_elem_of_fmap.
    apply elem_of_map_to_list in Hp, Hq. simpl. apply Hinj; by eexists. }
  exists (MkAnomalies (serialized_baseline_ self) SERIALIZED_PATH result).
  split_and!; [unfold GetSchemaDiff; by rewrite Hresult | done | done | |].
  - intros path anomaly Hin.
    destruct (Hschemas _ _ Hin) as [schema Hs].
    specialize (Hlook (path, anomaly)). simpl in Hlook. simpl.
    rewrite Hlook by by apply elem_of_map_to_list.
    unfold GetAnomalyInfo. rewrite Hs. simpl. eexists. split; [done |].
    split_and!; [done | done |].
    unfold GetAnomalyInfoCommon; simpl.
    induction (FilterDescriptions (descriptions_ anomaly)) as [|d ds IH];
      [done |].
    simpl. rewrite IH. by destruct d.
  - intros key info Hkey. simpl in Hkey.
    destruct (Hkeys _ _ Hkey) as [Hempty | ([path anomaly] & Hin & -> & _)].
    + by rewrite lookup_empty in Hempty.
    + exists path. split; [done |].
      apply elem_of_map_to_list in Hin. by eexists.
Qed.

Lemma has_missing_grows path self self' :
  grows self self' → has_missing path self → has_missing path self'.
Proof.
  intros [_ Hgrows] (anomaly & Hlook & Hseverity & Hin).
  destruct (Hgrows _ _ Hlook) as (anomaly' & Hlook' & _ & Hprefix & Hle).
  exists anomaly'. split_and!; [done | |].
  - rewrite Hseverity in Hle. by destruct (severity_ anomaly').
  - destruct Hprefix as [added ->]. apply elem_of_app. by left.
Qed.

Lemma observe_missing_step path self self' calls :
  GenericUpdate (run_operation Do_ObserveMissing) path self
  = Returns OK self' calls →
  has_missing path self'.
Proof.
  destruct (anomalies_ self !! path) as [entry|] eqn:Hlook.
  - rewrite (GenericUpdate_present _ _ _ _ Hlook).
    destruct (schema_ entry) as [schema|] eqn:Hs.
    + simpl. unfold bind. rewrite (ObserveMissing_returns _ _ Hs). simpl.
      intros [= <- <-]. eexists. simpl. rewrite lookup_insert_eq.
      split_and!; [done | apply MaxSeverity_ERROR |].
      apply elem_of_app. right. apply list_elem_of_here.
    + by rewrite (run_operation_null Do_ObserveMissing entry Hs).
  - rewrite (GenericUpdate_absent _ _ _ Hlook).
    destruct (Schema_Init (serialized_baseline_ self))
      as [fresh [|code message]]; [| done].
    simpl. unfold bind. simpl.
    intros [= <- <-]. eexists. simpl. rewrite lookup_insert_eq.
    split_and!; [done | done | apply list_elem_of_here].
Qed.

Lemma missing_sweep_marks (paths : list Path) self self' calls :
  for_each (GenericUpdate (run_operation Do_ObserveMissing)) paths self
  = Returns OK self' calls →
  ∀ path, path ∈ paths → has_missing path self'.
Proof.
  revert self calls.
  induction paths as [|first rest IH]; intros self calls; simpl.
  - by intros _ path ?%elem_of_nil.
  - unfold bind.
    destruct (GenericUpdate _ first self)
      as [[|code message] self1 calls1| |] eqn:Hstep; try done.
    destruct (for_each _ rest self1) as [status2 self2 calls2| |] eqn:Hrest;
      [| done | done].
    intros [= -> <- <-] path [-> | Hin]%elem_of_cons.
    + apply (has_missing_grows first self1 self2);
        [| by apply (observe_missing_step first self self1 calls1)].
      eapply (for_each_preserves (grows self1));
        [| apply grows_refl | exact Hrest].
      apply Forall_forall. intros p _ s st s' cs Hs Hrun.
      eapply grows_trans; [exact Hs |].
      exact (sweep_step_grows Do_ObserveMissing p s st s' cs Hrun).
    + by eapply IH.
Qed.

(** X10. When FindChanges returns OK, the baseline parsed, and every path
    its missing-path query named has an entry with severity ERROR whose
    descriptions hold the one of the missing column. *)
Theorem X10_missing_paths_reported (statistics : DatasetStatsView Stats)
    (required : option (gmap Path Reasons)) config self self' calls :
  FindChanges statistics required config self = Returns OK self' calls →
  ∃ baseline,
    Schema_Init (serialized_baseline_ self) = (baseline, OK)
    ∧ ∀ path, path ∈ Schema_GetMissingPaths statistics baseline →
        has_missing path self'.
Proof.
  unfold FindChanges, bind.
  destruct (for_each _ (GetRootFeatures statistics) self)
    as [[|code message] self1 calls1| |] eqn:Hroots; try done.
  assert (grows self self1) as [Hbaseline _].
  { eapply (for_each_preserves (grows self)); [| apply grows_refl | done].
    apply Forall_forall. intros view _ s st s' cs Hs Hrun.
    eapply grows_trans; [exact Hs | by eapply walk_grows]. }
  unfold InitSchema_baseline, bind, gets, call, ret; simpl.
  rewrite Hbaseline.
  destruct (Schema_Init (serialized_baseline_ self))
    as [baseline [|code message]]; simpl; [| done].
  destruct (for_each _ (Schema_GetMissingPaths statistics baseline) self1)
    as [[|code message] self2 calls2| |] eqn:Hsweep; try done.
  simpl. intros [= <- <-]. exists baseline. split; [done |].
  by eapply missing_sweep_marks.
Qed.

Lemma entered_app calls1 calls2 :
  entered (calls1 ++ calls2) = entered calls1 ++ entered calls2.
Proof. apply omap_app. Qed.

Lemma entered_none calls :
  Forall (λ c, ∀ q, c ≠ Enter q ∧ c ≠ Call_UpdateRecursively q) calls →
  entered calls = [].
Proof.
  induction 1 as [|c calls Hc _ IH]; [done |].
  destruct c; try exact IH. by destruct (Hc path) as [? _].
Qed.

Lemma paths_of_unfold path (stats : Stats)
    (children : list (FeatureStatsView Stats)) :
  paths_of (MkFeatureStatsView path stats children)
  = path :: concat (map paths_of children).
Proof.
  unfold paths_of. cbn [nodes_of]. rewrite fmap_cons. f_equal.
  induction children as [|child rest IH]; [done |].
  cbn [map concat]. by rewrite fmap_app, IH.
Qed.

Lemma walk_entered view needed updater :
  ∀ self status self' calls,
    FindChangesRecursively view needed updater self
    = Returns status self' calls →
    entered calls `sublist_of` paths_of view
    ∧ head (entered calls) = Some (GetPath view).
Proof.
  induction view as [path stats children IH] using FeatureStatsView_nested_ind.
  intros self status self' calls.
  rewrite paths_of_unfold.
  set (view := MkFeatureStatsView path stats children) in *.
  assert ([path] `sublist_of` path :: concat (map paths_of children)) as Hone.
  { apply sublist_skip, sublist_nil_l. }
  destruct (Schema_Init (serialized_baseline_ self))
    as [baseline [|code message]] eqn:Hinit.
  2: { rewrite (walk_seeding_fails _ _ _ _ _ _ _ Hinit).
       by intros [= <- <- <-]. }
  destruct (Schema_FeatureExists path baseline) eqn:Hex.
  - destruct (Schema_FeatureIsDeprecated path baseline) eqn:Hdep.
    + rewrite (walk_deprecated view _ _ _ baseline) by done.
      by intros [= <- <- <-].
    + rewrite (walk_validated view _ _ _ baseline) by done.
      destruct (GenericUpdate _ (GetPath view) self)
        as [status1 self1 calls1| |] eqn:Hrun; [| done | done].
      pose proof (entered_none _ (GenericUpdate_Update_calls _ _ _ _ _ _ _ Hrun))
        as Hnone.
      destruct status1 as [|code message].
      2: { intros [= <- <- <-]. simpl.
           change (entered (Enter path :: Call_Init :: calls1))
             with (path :: entered calls1).
           by rewrite Hnone. }
      destruct (reports_deprecated (GetPath view) self1).
      { intros [= <- <- <-]. simpl.
        change (entered (Enter path :: Call_Init :: calls1))
          with (path :: entered calls1).
        by rewrite Hnone. }
      change (GetChildren view) with children.
      destruct (for_each _ children self1)
        as [status2 self2 calls2| |] eqn:Hloop; [| done | done].
      intros [= <- <- <-]. simpl.
      change (entered (Enter path :: Call_Init :: calls1 ++ calls2))
        with (path :: entered (calls1 ++ calls2)).
      rewrite entered_app, Hnone. simpl. split; [| done].
      apply sublist_skip.
      clear -IH Hloop. revert self1 status2 self2 calls2 Hloop.
      induction IH as [|child rest Hchild _ IHrest];
        intros s st s' cs; simpl.
      * unfold ret. by intros [= <- <- <-].
      * unfold bind.
        destruct (FindChangesRecursively child needed updater s)
          as [[|code message] s1 cs1| |] eqn:Hwalk; try done.
        -- destruct (for_each _ rest s1) as [st2 s2 cs2| |] eqn:Hrest;
             [| done | done].
           intros [= <- <- <-]. rewrite entered_app.
           apply sublist_app; [by eapply Hchild | by eapply IHrest].
        -- simpl. intros [= <- <- <-]. rewrite app_nil_r.
           apply sublist_inserts_r. by eapply Hchild.
  - destruct (ShouldCreateFeature needed view) eqn:Hshould.
    + rewrite (walk_created view _ _ _ baseline) by done.
      set (target := default _ _).
      destruct (schema_ target) as [schema|] eqn:Hs.
      * rewrite (CreateNewField_returns _ _ _ _ _ Hs).
        destruct (Schema_UpdateRecursively updater view needed schema)
          as [schema' [[[|code message] found] severity]];
          intros [= <- <- <-]; simpl;
          by destruct (ContainsKey (anomalies_ self) path).
      * pose proof (run_operation_null
                      (Do_CreateNewField updater needed view) target Hs) as Hn.
        simpl in Hn. by rewrite Hn.
    + rewrite (walk_ignored view _ _ _ baseline) by done.
      by intros [= <- <- <-].
Qed.

(** X11. Whatever it returns, the tree walk activates first on the node
    it is given and then only on nodes of its tree, each at most once,
    parents before children and siblings in order: the paths it activates on
    are a sub-sequence of the paths of the tree in pre-order. *)
Theorem X11_walk_order view needed updater self status self' calls :
  FindChangesRecursively view needed updater self
  = Returns status self' calls →
  entered calls `sublist_of` paths_of view
  ∧ head (entered calls) = Some (GetPath view).
Proof. apply walk_entered. Qed.

(** A first touch by the evaluator that finds nothing leaves the set as it
    was. *)
Lemma satisfied_step updater baseline view self :
  satisfied updater baseline view →
  Schema_Init (serialized_baseline_ self) = (baseline, OK) →
  anomalies_ self !! GetPath view = None →
  GenericUpdate (Update updater view) (GetPath view) self
  = Returns OK self
      [Call_Init; Call_Update (GetPath view); Call_UpgradeSeverity UNKNOWN].
Proof.
  intros (_ & _ & kept & Hupdate) Hinit Hlook.
  rewrite (GenericUpdate_absent _ _ _ Hlook), Hinit.
  rewrite (Update_returns _ _
             (MkSchemaAnomaly (Some baseline) (GetPath view) [] UNKNOWN)
             baseline eq_refl).
  by rewrite Hupdate.
Qed.

Lemma walk_satisfied updater baseline needed view :
  Forall (satisfied updater baseline) (nodes_of view) →
  ∀ self,
    Schema_Init (serialized_baseline_ self) = (baseline, OK) →
    (∀ path, path ∈ paths_of view → anomalies_ self !! path = None) →
    ∃ calls,
      FindChangesRecursively view needed updater self = Returns OK self calls
      ∧ entered calls = paths_of view.
Proof.
  induction view as [path stats children IH] using FeatureStatsView_nested_ind.
  intros Hall self Hinit Hnone.
  set (view := MkFeatureStatsView path stats children) in *.
  assert (satisfied updater baseline view) as Hview.
  { rewrite Forall_forall in Hall. apply Hall. simpl. apply list_elem_of_here. }
  pose proof Hview as (Hex & Hdep & _).
  assert (anomalies_ self !! path = None) as Hlook.
  { apply Hnone. unfold paths_of. simpl. apply list_elem_of_here. }
  rewrite (walk_validated view _ _ _ baseline) by done.
  rewrite (satisfied_step _ _ _ _ Hview Hinit Hlook).
  unfold reports_deprecated.
  rewrite (ContainsKey_None _ (GetPath view) Hlook).
  change (GetChildren view) with children. cbn [andb].
  assert (∃ calls,
            for_each (λ child, FindChangesRecursively child needed updater)
              children self
            = Returns OK self calls
            ∧ entered calls = concat (map paths_of children))
    as (calls & -> & Hentered).
  { assert (Forall (λ child,
                      Forall (satisfied updater baseline) (nodes_of child)
                      ∧ ∀ p, p ∈ paths_of child → anomalies_ self !! p = None)
              children) as Hchildren.
    { apply Forall_forall. intros child Hchild. split.
      - apply Forall_forall. intros node Hnode.
        rewrite Forall_forall in Hall. apply Hall.
        by eapply nodes_of_children.
      - intros p Hp. apply Hnone. unfold paths_of in *.
        apply list_elem_of_fmap in Hp as (node & -> & Hnode).
        apply list_elem_of_fmap_2. by eapply nodes_of_children. }
    clear -IH Hchildren Hinit.
    induction IH as [|child rest Hchild _ IHrest].
    - by exists [].
    - inversion Hchildren as [|? ? [Hsat Hfree] Hrest]; subst.
      destruct (Hchild Hsat self Hinit Hfree) as (calls1 & Hwalk & Hent1).
      destruct (IHrest Hrest) as (calls2 & Hloop & Hent2).
      exists (calls1 ++ calls2). simpl. unfold bind.
      rewrite Hwalk, Hloop. split; [done |].
      by rewrite entered_app, Hent1, Hent2. }
  eexists. split; [done |].
  subst view. rewrite paths_of_unfold. simpl.
  change (entered (Enter path :: Call_Init :: Call_Init :: Call_Update path
                   :: Call_UpgradeSeverity UNKNOWN :: calls))
    with (path :: entered calls).
  by rewrite Hentered.
Qed.

(** X12. A dataset that satisfies the schema leaves no trace. When the
    baseline parses, every node of the statistics is a feature of the
    baseline that is not deprecated and on which the evaluator succeeds with
    no description and severity UNKNOWN, no path of the statistics has an
    entry yet and no path is missing, FindChanges returns OK with the
    anomaly set exactly as it was, after activating the walk on every node,
    in pre-order; from an empty map the report then has no entry. *)
Theorem X12_satisfying_dataset (statistics : DatasetStatsView Stats)
    (required : option (gmap Path Reasons)) config self baseline :
  Schema_Init (serialized_baseline_ self) = (baseline, OK) →
  Forall (λ root,
            Forall (satisfied (Updater_new config) baseline) (nodes_of root)
            ∧ ∀ path, path ∈ paths_of root → anomalies_ self !! path = None)
    (GetRootFeatures statistics) →
  Schema_GetMissingPaths statistics baseline = [] →
  ∃ calls,
    FindChanges statistics required config self = Returns OK self calls
    ∧ entered calls = concat (map paths_of (GetRootFeatures statistics))
    ∧ (anomalies_ self = ∅ → anomaly_info <$> GetSchemaDiff self = Some ∅).
Proof.
  intros Hinit Hroots Hmissing.
  assert (∃ calls,
            for_each
              (λ view, FindChangesRecursively view (dom <$> required)
                         (Updater_new config))
              (GetRootFeatures statistics) self
            = Returns OK self calls
            ∧ entered calls
              = concat (map paths_of (GetRootFeatures statistics)))
    as (calls & Hwalks & Hentered).
  { induction Hroots as [|root rest [Hsat Hfree] _ IH].
    - by exists [].
    - destruct (walk_satisfied _ _ (dom <$> required) _ Hsat self Hinit Hfree)
        as (calls1 & Hwalk & Hent1).
      destruct IH as (calls2 & Hloop & Hent2).
      exists (calls1 ++ calls2). simpl. unfold bind.
      rewrite Hwalk, Hloop. split; [done |].
      by rewrite entered_app, Hent1, Hent2. }
  exists (calls ++ [Call_Init]). split_and!.
  - unfold FindChanges, bind. rewrite Hwalks.
    unfold InitSchema_baseline, bind, gets, call, ret; simpl.
    rewrite Hinit, Hmissing. simpl. by rewrite ?app_nil_r.
  - by rewrite entered_app, Hentered, app_nil_r.
  - intros Hempty. unfold GetSchemaDiff. rewrite Hempty.
    by rewrite map_to_list_empty.
Qed.

Lemma for_each_first_failure {S A} (f : A → M S Status) finished x rest
    s s1 calls1 code message s2 calls2 :
  for_each f finished s = Returns OK s1 calls1 →
  f x s1 = Returns (NotOk code message) s2 calls2 →
  for_each f (finished ++ x :: rest) s
  = Returns (NotOk code message) s2 (calls1 ++ calls2).
Proof.
  revert s calls1.
  induction finished as [|y finished IH]; intros s calls1; simpl.
  - unfold ret. intros [= <- <-] Hx. unfold bind. rewrite Hx. simpl.
    by rewrite app_nil_r.
  - unfold bind.
    destruct (f y s) as [[|code' message'] s' calls'| |]; try done.
    destruct (for_each f finished s') as [st s'' calls''| |] eqn:Hdone;
      [| done | done].
    intros [= -> <- <-] Hx. rewrite (IH _ _ Hdone Hx).
    by rewrite app_assoc.
Qed.

(** X13. FindChanges stops at the first root whose walk fails: it returns
    the status and the anomaly set that walk left, whatever roots come after
    it, and makes no missing-feature sweep. *)
Theorem X13_first_failing_root (statistics : DatasetStatsView Stats)
    (required : option (gmap Path Reasons)) config self finished view rest
    self1 calls1 code message self2 calls2 :
  GetRootFeatures statistics = finished ++ view :: rest →
  for_each
    (λ root, FindChangesRecursively root (dom <$> required)
               (Updater_new config))
    finished self
  = Returns OK self1 calls1 →
  FindChangesRecursively view (dom <$> required) (Updater_new config) self1
  = Returns (NotOk code message) self2 calls2 →
  FindChanges statistics required config self
  = Returns (NotOk code message) self2 (calls1 ++ calls2).
Proof.
  intros Hroots Hfinished Hfails. unfold FindChanges, bind. rewrite Hroots.
  rewrite (for_each_first_failure _ _ _ _ _ _ _ _ _ _ _ Hfinished Hfails).
  simpl. by rewrite app_nil_r.
Qed.

(** X14. When the baseline does not parse, FindChanges returns the status
    of the parse and leaves the anomaly set as it was, whatever the
    statistics: it stops at the first root, or, without roots, before the
    missing-feature sweep. *)
Theorem X14_unparsable_baseline (statistics : DatasetStatsView Stats)
    (required : option (gmap Path Reasons)) config self broken code message :
  Schema_Init (serialized_baseline_ self) = (broken, NotOk code message) →
  ∃ calls,
    FindChanges statistics required config self
    = Returns (NotOk code message) self calls
    ∧ entered calls = GetPath <$> take 1 (GetRootFeatures statistics).
Proof.
  intros Hinit. unfold FindChanges, bind.
  destruct (GetRootFeatures statistics) as [|root rest] eqn:Hroots.
  - simpl. unfold InitSchema_baseline, bind, gets, call, ret; simpl.
    rewrite Hinit. simpl. by eexists.
  - rewrite (for_each_first_failure _ [] root rest self self [] code message
               self [Enter (GetPath root); Call_Init] eq_refl).
    + simpl. by eexists.
    + by apply (walk_seeding_fails _ _ _ _ broken).
Qed.

(** The skew step on an accumulator whose schema is set always succeeds;
    with a baseline that parses, so does the step on a new path. *)
Lemma skew_step view self baseline :
  well_keyed self →
  Schema_Init (serialized_baseline_ self) = (baseline, OK) →
  ∃ self' calls,
    GenericUpdate (run_operation (Do_UpdateSkewComparator view))
      (GetPath view) self
    = Returns OK self' calls.
Proof.
  intros Hwk Hinit.
  destruct (anomalies_ self !! GetPath view) as [entry|] eqn:Hlook.
  - rewrite (GenericUpdate_present _ _ _ _ Hlook).
    destruct (Hwk _ _ Hlook) as [_ [schema Hs]].
    simpl. unfold bind. rewrite (UpdateSkewComparator_returns _ _ _ Hs).
    destruct (Schema_UpdateSkewComparator view schema). simpl. by eexists _, _.
  - rewrite (GenericUpdate_absent _ _ _ Hlook), Hinit.
    simpl. unfold bind.
    rewrite (UpdateSkewComparator_returns view
               (MkSchemaAnomaly (Some baseline) (GetPath view) [] UNKNOWN)
               baseline eq_refl).
    destruct (Schema_UpdateSkewComparator view baseline). simpl.
    by eexists _, _.
Qed.

Lemma FindSkew_status (statistics : DatasetStatsView Stats) self status self'
    calls :
  FindSkew statistics self = Returns status self' calls → status = OK.
Proof.
  unfold FindSkew. revert self calls.
  induction (features statistics) as [|view rest IH]; intros self calls; simpl.
  - unfold ret. congruence.
  - unfold bind, TF_CHECK_OK.
    destruct (GenericUpdate _ _ self) as [[|code message] s1 calls1| |];
      try done.
    simpl. destruct (for_each _ rest s1) as [st s2 calls2| |] eqn:Hrest;
      [| done | done].
    intros [= Hst ? ?]. subst. by eapply IH.
Qed.

(** X15. FindSkew never returns a failure. Whenever it returns, the status
    is OK. From a set whose entries all carry a schema and whose baseline
    parses it does return. When the baseline does not parse and the first
    feature has no entry yet, it ends the process instead. *)
Theorem X15_find_skew_status (statistics : DatasetStatsView Stats) self :
  (∀ status self' calls,
     FindSkew statistics self = Returns status self' calls → status = OK)
  ∧ (∀ baseline,
       well_keyed self →
       Schema_Init (serialized_baseline_ self) = (baseline, OK) →
       ∃ self' calls, FindSkew statistics self = Returns OK self' calls)
  ∧ (∀ view rest broken code message,
       features statistics = view :: rest →
       anomalies_ self !! GetPath view = None →
       Schema_Init (serialized_baseline_ self) = (broken, NotOk code message) →
       FindSkew statistics self = CheckFailed).
Proof.
  split_and!.
  - intros *. apply FindSkew_status.
  - intros baseline Hwk Hinit.
    pose proof (for_each_outcome False
                  (λ s, well_keyed s
                        ∧ serialized_baseline_ s = serialized_baseline_ self)
                  (λ view,
                     TF_CHECK_OK
                       (GenericUpdate
                          (run_operation (Do_UpdateSkewComparator view))
                          (GetPath view)) ;; ret OK)%m
                  (features statistics)) as Hloop.
    assert (outcome_in False
              (λ s, well_keyed s
                    ∧ serialized_baseline_ s = serialized_baseline_ self)
              (FindSkew statistics self)) as Hout.
    { apply Hloop; [| done].
      apply Forall_forall. intros view _ s [Hs Hb].
      unfold bind, TF_CHECK_OK.
      destruct (skew_step view s baseline Hs) as (s' & calls & Hstep);
        [by rewrite Hb |].
      pose proof (GenericUpdate_safe (Do_UpdateSkewComparator view)
                    (GetPath view) s Hs) as Hsafe.
      pose proof (sweep_step_grows _ _ _ _ _ _ Hstep) as [Hb' _].
      rewrite Hstep in Hsafe |- *. simpl in *. split; [done | congruence]. }
    destruct (FindSkew statistics self) as [status self' calls| |] eqn:Hrun;
      [| done | done].
    rewrite (FindSkew_status _ _ _ _ _ Hrun) in Hrun |- *.
    by exists self', calls.
  - intros view rest broken code message Hfeatures Hlook Hinit.
    unfold FindSkew. rewrite Hfeatures. simpl. unfold bind, TF_CHECK_OK.
    change (GenericUpdate (UpdateSkewComparator view;; ret OK)%m)
      with (GenericUpdate (run_operation (Do_UpdateSkewComparator view))).
    by rewrite (GenericUpdate_absent _ _ _ Hlook), Hinit.
Qed.

Lemma for_each_unchanged {S A} (f : A → M S Status) range s :
  Forall (λ x, ∃ calls, f x s = Returns OK s calls) range →
  ∃ calls, for_each f range s = Returns OK s calls.
Proof.
  induction 1 as [|x rest [calls1 Hx] _ [calls2 Hrest]]; [by exists [] |].
  exists (calls1 ++ calls2). simpl. unfold bind. by rewrite Hx, Hrest.
Qed.

(** X16. Features without skew leave no trace. When the baseline parses,
    the comparator returns no description for any of the features against
    the baseline schema and none of their paths has an entry yet, FindSkew
    returns OK with the anomaly set exactly as it was. *)
Theorem X16_no_skew (statistics : DatasetStatsView Stats) self baseline :
  Schema_Init (serialized_baseline_ self) = (baseline, OK) →
  Forall (λ view,
            (Schema_UpdateSkewComparator view baseline).2 = []
            ∧ anomalies_ self !! GetPath view = None)
    (features statistics) →
  ∃ calls, FindSkew statistics self = Returns OK self calls.
Proof.
  intros Hinit Hall. unfold FindSkew.
  apply for_each_unchanged.
  eapply Forall_impl; [exact Hall |].
  intros view [Hnone Hlook]. unfold bind, TF_CHECK_OK.
  change (GenericUpdate (UpdateSkewComparator view;; ret OK)%m)
    with (GenericUpdate (run_operation (Do_UpdateSkewComparator view))).
  rewrite (GenericUpdate_absent _ _ _ Hlook), Hinit.
  simpl. unfold bind.
  rewrite (UpdateSkewComparator_returns view
             (MkSchemaAnomaly (Some baseline) (GetPath view) [] UNKNOWN)
             baseline eq_refl).
  destruct (Schema_UpdateSkewComparator view baseline) as [schema' found].
  simpl in Hnone. subst found. simpl. by eexists.
Qed.

(** X17. An accumulator that holds one description, or several that are
    all of kind SCHEMA_NEW_COLUMN, renders as its first description alone:
    that description is the one reason, and the short and long texts of the
    entry are its texts. *)
Theorem X17_single_reason_texts anomaly first rest existing_schema new_schema :
  descriptions_ anomaly = first :: rest →
  rest = [] ∨ Forall (λ d, type d = SCHEMA_NEW_COLUMN) (first :: rest) →
  let info := GetAnomalyInfoCommon existing_schema new_schema anomaly in
  info_reason info = [first]
  ∧ info_short_description info = short_description first
  ∧ info_description info = long_description first.
Proof.
  intros Hdescriptions Hcase.
  assert (FilterDescriptions (first :: rest) = [first]) as Hfilter.
  { destruct Hcase as [-> | Hall]; [| by apply FilterDescriptions_collapse].
    unfold FilterDescriptions. simpl. by destruct (bool_decide _). }
  unfold GetAnomalyInfoCommon. simpl. rewrite Hdescriptions, Hfilter.
  unfold UnifyDescriptions. simpl.
  rewrite unify_step_empty_running by done. by destruct first.
Qed.

End Sweeps.

(** ** Which entries can be clean *)

Section Problems.
Context {SchemaProto Schema Updater Config Stats Reasons : Type}.
Context {api : SchemaApi SchemaProto Schema Updater Config Stats}.
Implicit Types (self : SchemaAnomalies SchemaProto Schema).
Implicit Types (anomaly entry : SchemaAnomaly Schema) (path : Path).
Implicit Types (view : FeatureStatsView Stats) (needed : option (gset Path)).
Implicit Types (excused : Path → Prop).
















End Problems.

(** ** The further properties on the small instance *)

Section MoreOnToy.
Import Toy.

Lemma X4_witness :
  let out := (Schema_UpdateRecursively tt (leaf z unreadable) None
                [(a, false); (b, false)]).2 in
  ∃ anomaly' calls,
    CreateNewField tt None (leaf z unreadable) (seeded z)
    = Returns out.1.1 anomaly' calls
    ∧ path_ anomaly' = path_ (seeded z)
    ∧ (out.1.1 ≠ OK →
       descriptions_ anomaly' = descriptions_ (seeded z)
       ∧ severity_ anomaly' = severity_ (seeded z))
    ∧ (out.1.1 = OK →
       descriptions_ anomaly' = descriptions_ (seeded z) ++ out.1.2
       ∧ severity_ anomaly' = MaxSeverity (severity_ (seeded z)) out.2).
Proof.
  apply (X4_create_new_field (api := Toy.api) tt None (leaf z unreadable)
           (seeded z) [(a, false); (b, false)]).
  reflexivity.
Defined.

Lemma X5_witness :
  grows after_flagged
    (state_of after_flagged
       (GenericUpdate (run_operation Do_ObserveMissing) b after_flagged))
  ∧ ∀ other, other ≠ b →
      anomalies_
        (state_of after_flagged
           (GenericUpdate (run_operation Do_ObserveMissing) b after_flagged))
        !! other
      = anomalies_ after_flagged !! other.
Proof.
  eapply (X5_generic_update_grows (api := Toy.api) Do_ObserveMissing b
            after_flagged OK).
  reflexivity.
Defined.

Lemma X6_witness : grows (new_set ab) after_flagged.
Proof.
  eapply (proj1 (proj2 (X6_sweeps_grow (api := Toy.api) (Reasons := unit)))
            (single a flagged) None tt (new_set ab) OK).
  reflexivity.
Defined.

Lemma X7_witness :
  anomalies_
    (state_of after_flagged
       (FindChangesRecursively (leaf a flagged) None tt after_flagged)) !! b
  = anomalies_ after_flagged !! b.
Proof.
  eapply (proj1 (X7_sweeps_frame (api := Toy.api) (Reasons := unit) b)
            (leaf a flagged) None tt after_flagged OK).
  - vm_compute. by intros [[=] | []%elem_of_nil]%elem_of_cons.
  - reflexivity.
Defined.

Lemma X8_witness :
  well_keyed after_failed_creation
  ∧ is_Some (GetSchemaDiff after_failed_creation).
Proof.
  destruct (X8_no_null_schema (api := Toy.api) (Reasons := unit)
              after_failed_creation)
    as (Hkeyed & _ & _ & Hreport).
  - eapply (reachable_FindChanges (new_set ab) (single z unreadable) None tt);
      [constructor | reflexivity].
  - by split.
Defined.

Lemma X9_witness :
  ∃ report,
    GetSchemaDiff only_b = Some report
    ∧ anomaly_name_format report = SERIALIZED_PATH
    ∧ ∃ info, anomaly_info report !! "b" = Some info
              ∧ info_severity info = ERROR.
Proof.
  destruct (X9_report_entries (api := Toy.api) only_b)
    as (report & Hreport & _ & Hformat & Hentries & _).
  - intros path anomaly Hlook. unfold only_b in Hlook. simpl in Hlook.
    apply lookup_singleton_Some in Hlook as [_ <-]. by eexists.
  - intros p q [x Hp] [y Hq] _. unfold only_b in Hp, Hq. simpl in Hp, Hq.
    apply lookup_singleton_Some in Hp as [<- _].
    by apply lookup_singleton_Some in Hq as [<- _].
  - exists report. split_and!; [done | done |].
    destruct (Hentries b _ (lookup_singleton_eq _ _))
      as (info & Hinfo & _ & Hseverity & _).
    by exists info.
Defined.

Lemma X10_witness :
  has_missing b
    (state_of (new_set ab)
       (FindChanges (Reasons := unit) (single a clean) None tt (new_set ab))).
Proof.
  destruct (X10_missing_paths_reported (api := Toy.api) (Reasons := unit)
              (single a clean) None tt (new_set ab)
              (state_of (new_set ab)
                 (FindChanges (Reasons := unit) (single a clean) None tt
                    (new_set ab)))
              (calls_of
                 (FindChanges (Reasons := unit) (single a clean) None tt
                    (new_set ab))))
    as (baseline & Hinit & Hmarked).
  - reflexivity.
  - injection Hinit as <-. apply Hmarked. vm_compute. apply list_elem_of_here.
Defined.

Lemma X11_witness :
  entered
    (calls_of
       (FindChangesRecursively (a_with_child flagged) None tt (new_set ab)))
  `sublist_of` paths_of (a_with_child flagged)
  ∧ head
      (entered
         (calls_of
            (FindChangesRecursively (a_with_child flagged) None tt
               (new_set ab))))
    = Some (GetPath (a_with_child flagged)).
Proof.
  eapply (X11_walk_order (api := Toy.api) (a_with_child flagged) None tt
            (new_set ab) OK
            (state_of (new_set ab)
               (FindChangesRecursively (a_with_child flagged) None tt
                  (new_set ab)))).
  reflexivity.
Defined.

Lemma X12_witness :
  ∃ calls,
    FindChanges (Reasons := unit) (single a clean) None tt (new_set only_a)
    = Returns OK (new_set only_a) calls
    ∧ entered calls = concat (map paths_of (GetRootFeatures (single a clean)))
    ∧ (anomalies_ (new_set only_a) = ∅ →
       anomaly_info <$> GetSchemaDiff (new_set only_a) = Some ∅).
Proof.
  apply (X12_satisfying_dataset (api := Toy.api) (Reasons := unit)
           (single a clean) None tt (new_set only_a) [(a, false)]).
  - reflexivity.
  - repeat constructor. by eexists.
  - reflexivity.
Defined.

Lemma X13_witness :
  FindChanges (Reasons := unit) three_roots None tt (new_set ab)
  = Returns (NotOk 3 "unsupported statistics") after_failed_creation
      ([Enter a; Call_Init; Call_Init; Call_Update a;
        Call_UpgradeSeverity UNKNOWN]
       ++ [Enter z; Call_Init; Call_Init; Call_UpdateRecursively z]).
Proof.
  apply (X13_first_failing_root (api := Toy.api) (Reasons := unit)
           three_roots None tt (new_set ab) [leaf a clean]
           (leaf z unreadable) [leaf b clean] (new_set ab)).
  - reflexivity.
  - reflexivity.
  - vm_compute. reflexivity.
Defined.

Lemma X14_witness :
  ∃ calls,
    FindChanges (Reasons := unit) (single a clean) None tt
      (new_set unparsable)
    = Returns (NotOk 3 "schema does not parse") (new_set unparsable) calls
    ∧ entered calls = GetPath <$> take 1 (GetRootFeatures (single a clean)).
Proof.
  apply (X14_unparsable_baseline (api := Toy.api) (Reasons := unit)
           (single a clean) None tt (new_set unparsable) []).
  reflexivity.
Defined.

Lemma X15_witness :
  (∃ self' calls,
     FindSkew (single a skewed) (new_set ab) = Returns OK self' calls)
  ∧ FindSkew (single a skewed) (new_set unparsable) = CheckFailed.
Proof.
  split.
  - apply (proj1 (proj2
             (X15_find_skew_status (api := Toy.api) (single a skewed)
                (new_set ab)))
             [(a, false); (b, false)]).
    + intros path anomaly. simpl. by rewrite lookup_empty.
    + reflexivity.
  - apply (proj2 (proj2
             (X15_find_skew_status (api := Toy.api) (single a skewed)
                (new_set unparsable)))
             (leaf a skewed) [] [] 3%Z "schema does not parse").
    + reflexivity.
    + reflexivity.
    + reflexivity.
Defined.

Lemma X17_witness :
  let info :=
    GetAnomalyInfoCommon "" ""
      (MkSchemaAnomaly (Some [(a, false); (b, false)]) z five_new ERROR) in
  info_reason info = [MkDescription SCHEMA_NEW_COLUMN "New column" "z"]
  ∧ info_short_description info = "New column"
  ∧ info_description info = "z".
Proof.
  apply (X17_single_reason_texts (Schema := Toy.Schema)
           (MkSchemaAnomaly (Some [(a, false); (b, false)]) z five_new ERROR)
           (MkDescription SCHEMA_NEW_COLUMN "New column" "z")
           (map (λ name, MkDescription SCHEMA_NEW_COLUMN "New column" name)
              ["z.p"; "z.q"; "z.p.r"; "z.p.s"])
           "" "").
  - reflexivity.
  - right. repeat constructor.
Defined.

Lemma X16_witness :
  ∃ calls, FindSkew (single a clean) (new_set ab) = Returns OK (new_set ab) calls.
Proof.
  apply (X16_no_skew (api := Toy.api) (single a clean) (new_set ab)
           [(a, false); (b, false)]).
  - reflexivity.
  - repeat constructor.
Defined.



End MoreOnToy.
